(** * util/jsonutil: FindElement and DropElement

    A shallow embedding of [FindElement] and [DropElement] from
    [util/jsonutil/jsonutil.go], together with the part of Go's
    [encoding/json] streaming decoder ([Decoder.Token], [Decoder.Decode],
    [Decoder.More], [Decoder.InputOffset]) and scanner that the two
    functions drive.

    Conventions.
    - A Go [[]byte] is a [slice]: the visible elements and the spare
      capacity behind them, so that slicing up to [cap] and the in-place
      [append] of [DropElement] can be written out.
    - [int64] offsets are [Z]; every offset the code computes lies in
      [-1 .. len(extension)], so no wrap-around is reachable.
    - A Go call either returns or panics; loops written [for { ... }] are
      modelled with fuel, and [OutOfFuel] is shown unreachable for the
      fuel the definitions supply. *)

From Stdlib Require Import Bool String ZArith NArith Lia List.
From Stdlib Require Import Strings.Byte.
Import ListNotations.

Local Open Scope Z_scope.

(** ** Outcomes of a Go call *)

Inductive go (A : Type) : Type :=
| Ret (a : A)
| Panic (what : string)
| OutOfFuel.

Arguments Ret {A} a.
Arguments Panic {A} what.
Arguments OutOfFuel {A}.

Definition bind {A B} (m : go A) (k : A -> go B) : go B :=
  match m with
  | Ret a => k a
  | Panic w => Panic w
  | OutOfFuel => OutOfFuel
  end.

Notation "x <- m ;; k" := (bind m (fun x => k))
  (at level 61, m at next level, right associativity).

(** ** Bytes and Go strings *)

Definition bytes := list byte.

Definition code (c : byte) : N := Byte.to_N c.

Definition byte_of (n : N) : byte :=
  match Byte.of_N (n mod 256) with
  | Some b => b
  | None => x00
  end.

Definition byte_is (c : byte) (lit : string) : bool :=
  match list_byte_of_string lit with
  | [d] => Byte.eqb c d
  | _ => false
  end.

Definition quote : byte := x22.
Definition backslash : byte := x5c.

Definition between (lo hi : string) (c : byte) : bool :=
  match list_byte_of_string lo, list_byte_of_string hi with
  | [l], [h] => (code l <=? code c)%N && (code c <=? code h)%N
  | _, _ => false
  end.

Definition isDigit (c : byte) : bool := between "0" "9" c.

Fixpoint bytes_eqb (a b : bytes) : bool :=
  match a, b with
  | [], [] => true
  | x :: a', y :: b' => Byte.eqb x y && bytes_eqb a' b'
  | _, _ => false
  end.

(** Go string literals of the examples: [str] is the byte string of a
    literal, [js] the same with every apostrophe read as a double quote. *)
Definition str (s : string) : bytes := list_byte_of_string s.

Definition js (s : string) : bytes :=
  map (fun c => if Byte.eqb c x27 then quote else c) (list_byte_of_string s).

(** ** Slices *)

Record slice : Type := mkSlice {
  elems : bytes;   (* s[0], ..., s[len(s)-1] *)
  spare : bytes    (* the backing array between len(s) and cap(s) *)
}.

Definition backing (s : slice) : bytes := elems s ++ spare s.
Definition len (s : slice) : Z := Z.of_nat (length (elems s)).
Definition cap (s : slice) : Z := Z.of_nat (length (backing s)).

Definition nil_slice : slice := mkSlice [] [].
Definition slice_of (b : bytes) : slice := mkSlice b [].

(** [s[i]], with the run-time bounds check. *)
Definition index (s : slice) (i : Z) : go byte :=
  if (0 <=? i) && (i <? len s)
  then match nth_error (elems s) (Z.to_nat i) with
       | Some c => Ret c
       | None => Panic "index out of range"
       end
  else Panic "index out of range".

(** [s[lo:hi]]: for a slice the upper bound is checked against [cap(s)]. *)
Definition subslice (s : slice) (lo hi : Z) : go slice :=
  if (0 <=? lo) && (lo <=? hi) && (hi <=? cap s)
  then Ret (mkSlice (firstn (Z.to_nat (hi - lo)) (skipn (Z.to_nat lo) (backing s)))
                    (skipn (Z.to_nat hi) (backing s)))
  else Panic "slice bounds out of range".

(** [s[:hi]] *)
Definition slice_to (s : slice) (hi : Z) : go slice := subslice s 0 hi.

(** [s[lo:]] : the upper bound defaults to [len(s)]. *)
Definition slice_from (s : slice) (lo : Z) : go slice :=
  if (0 <=? lo) && (lo <=? len s)
  then Ret (mkSlice (skipn (Z.to_nat lo) (elems s)) (spare s))
  else Panic "slice bounds out of range".

(** [append(dst, src...)] where [dst] and [src] share [dst]'s backing array
    [arr] (the array seen from [dst[0]]).  Returns the resulting slice and
    the contents of [arr] afterwards: when the result fits in [cap(dst)] the
    elements are copied in place (with [memmove] semantics, so [src] is read
    as it was before the call); otherwise a fresh array is allocated and
    [arr] is left as it was.  The capacity of a fresh array is chosen by the
    run time; it is modelled as exactly the new length. *)
Definition append_shared (dst : slice) (src : bytes) : slice * bytes :=
  let n := (length (elems dst) + length src)%nat in
  if (n <=? length (backing dst))%nat
  then (mkSlice (elems dst ++ src) (skipn n (backing dst)),
        elems dst ++ src ++ skipn n (backing dst))
  else (mkSlice (elems dst ++ src) [], backing dst).

(** ** unicode/utf8 and unicode/utf16 (the parts [unquote] uses) *)

Module utf8.

Definition RuneError : Z := 0xFFFD.
Definition MaxRune : Z := 0x10FFFF.

Definition codeZ (c : byte) : Z := Z.of_N (code c).
Definition byteZ (z : Z) : byte := byte_of (Z.to_N z).

(** The [first] table with [acceptRanges]: size of the sequence a leading
    byte announces and the range accepted for its second byte. *)
Definition first (c0 : Z) : option (nat * Z * Z) :=
  if (0xC2 <=? c0) && (c0 <=? 0xDF) then Some (2%nat, 0x80, 0xBF)
  else if c0 =? 0xE0 then Some (3%nat, 0xA0, 0xBF)
  else if (0xE1 <=? c0) && (c0 <=? 0xEC) then Some (3%nat, 0x80, 0xBF)
  else if c0 =? 0xED then Some (3%nat, 0x80, 0x9F)
  else if (0xEE <=? c0) && (c0 <=? 0xEF) then Some (3%nat, 0x80, 0xBF)
  else if c0 =? 0xF0 then Some (4%nat, 0x90, 0xBF)
  else if (0xF1 <=? c0) && (c0 <=? 0xF3) then Some (4%nat, 0x80, 0xBF)
  else if c0 =? 0xF4 then Some (4%nat, 0x80, 0x8F)
  else None.

Definition inside (lo hi : Z) (b : byte) : bool :=
  (lo <=? codeZ b) && (codeZ b <=? hi).

Definition low6 (b : byte) : Z := Z.land (codeZ b) 0x3F.

Definition DecodeRune (p : bytes) : Z * nat :=
  match p with
  | [] => (RuneError, 0%nat)
  | p0 :: t =>
    let c0 := codeZ p0 in
    if c0 <? 0x80 then (c0, 1%nat)
    else match first c0 with
    | None => (RuneError, 1%nat)
    | Some (sz, lo, hi) =>
      if (length p <? sz)%nat then (RuneError, 1%nat)
      else match t with
      | [] => (RuneError, 1%nat)
      | b1 :: t1 =>
        if negb (inside lo hi b1) then (RuneError, 1%nat)
        else if (sz <=? 2)%nat
        then (Z.lor (Z.shiftl (Z.land c0 0x1F) 6) (low6 b1), 2%nat)
        else match t1 with
        | [] => (RuneError, 1%nat)
        | b2 :: t2 =>
          if negb (inside 0x80 0xBF b2) then (RuneError, 1%nat)
          else if (sz <=? 3)%nat
          then (Z.lor (Z.lor (Z.shiftl (Z.land c0 0x0F) 12)
                             (Z.shiftl (low6 b1) 6)) (low6 b2), 3%nat)
          else match t2 with
          | [] => (RuneError, 1%nat)
          | b3 :: _ =>
            if negb (inside 0x80 0xBF b3) then (RuneError, 1%nat)
            else (Z.lor (Z.lor (Z.lor (Z.shiftl (Z.land c0 0x07) 18)
                                      (Z.shiftl (low6 b1) 12))
                               (Z.shiftl (low6 b2) 6)) (low6 b3), 4%nat)
          end
        end
      end
    end
  end.

Definition tx (z : Z) : byte := byteZ (Z.lor 0x80 (Z.land z 0x3F)).

Definition encode3 (r : Z) : bytes :=
  [byteZ (Z.lor 0xE0 (Z.shiftr r 12)); tx (Z.shiftr r 6); tx r].

Definition EncodeRune (r : Z) : bytes :=
  if (0 <=? r) && (r <=? 0x7F) then [byteZ r]
  else if (0 <=? r) && (r <=? 0x7FF)
  then [byteZ (Z.lor 0xC0 (Z.shiftr r 6)); tx r]
  else if (r <? 0) || (MaxRune <? r) || ((0xD800 <=? r) && (r <=? 0xDFFF))
  then encode3 RuneError
  else if r <=? 0xFFFF then encode3 r
  else [byteZ (Z.lor 0xF0 (Z.shiftr r 18)); tx (Z.shiftr r 12);
        tx (Z.shiftr r 6); tx r].

End utf8.

Module utf16.

Definition IsSurrogate (r : Z) : bool := (0xD800 <=? r) && (r <? 0xE000).

Definition DecodeRune (r1 r2 : Z) : Z :=
  if (0xD800 <=? r1) && (r1 <? 0xDC00) && (0xDC00 <=? r2) && (r2 <? 0xE000)
  then Z.lor (Z.shiftl (r1 - 0xD800) 10) (r2 - 0xDC00) + 0x10000
  else utf8.RuneError.

End utf16.

(** ** strconv.ParseFloat, as far as [convertNumber] observes it

    [convertNumber] fails exactly when [strconv.ParseFloat(s, 64)] returns an
    error.  On a literal the scanner has accepted the only possible error is
    [ErrRange]: the decimal value, rounded to nearest-even, does not fit a
    float64, that is, its magnitude is at least [2^1024 - 2^970].  The
    exponent is accumulated the way [readFloat] does, no longer growing once
    it has reached 10000. *)

Module strconv.

Definition digit (c : byte) : Z := utf8.codeZ c - 48.

Fixpoint read_digits (l : bytes) (acc count : Z) : Z * Z * bytes :=
  match l with
  | c :: t => if isDigit c then read_digits t (acc * 10 + digit c) (count + 1)
              else (acc, count, l)
  | [] => (acc, count, [])
  end.

Fixpoint read_exp (l : bytes) (e : Z) : Z :=
  match l with
  | c :: t => if isDigit c
              then read_exp t (if e <? 10000 then e * 10 + digit c else e)
              else e
  | [] => e
  end.

Definition out_of_range (lit : bytes) : bool :=
  let l := match lit with
           | c :: t => if byte_is c "-" || byte_is c "+" then t else lit
           | [] => []
           end in
  let '(mi, _, l1) := read_digits l 0 0 in
  let '(m, nfrac, l2) :=
    match l1 with
    | c :: t => if byte_is c "." then read_digits t mi 0 else (mi, 0, l1)
    | [] => (mi, 0, [])
    end in
  let e :=
    match l2 with
    | c :: t =>
      if byte_is c "e" || byte_is c "E"
      then match t with
           | s :: t' => if byte_is s "-" then - read_exp t' 0
                        else if byte_is s "+" then read_exp t' 0
                        else read_exp t 0
           | [] => 0
           end
      else 0
    | [] => 0
    end in
  let x := e - nfrac in
  let threshold := 2 ^ 1024 - 2 ^ 970 in
  if 0 <=? x then threshold <=? m * 10 ^ x
  else threshold * 10 ^ (- x) <=? m.

End strconv.

(** ** encoding/json: errors and [unquote] *)

Inductive error : Type :=
| io_EOF
| io_ErrUnexpectedEOF
| SyntaxError (c : byte) (context : string)   (* invalid character c ... *)
| SyntaxErrorMsg (msg : string)
| UnmarshalTypeError (value : bytes).          (* "number " + literal *)

Definition is_EOF (e : error) : bool :=
  match e with io_EOF => true | _ => false end.

Definition hex (c : byte) : option Z :=
  if between "0" "9" c then Some (utf8.codeZ c - 48)
  else if between "a" "f" c then Some (utf8.codeZ c - 97 + 10)
  else if between "A" "F" c then Some (utf8.codeZ c - 65 + 10)
  else None.

(** [getu4]: the rune of a leading [\uXXXX], or -1. *)
Definition getu4 (s : bytes) : Z :=
  match s with
  | b :: u :: h1 :: h2 :: h3 :: h4 :: _ =>
    if Byte.eqb b backslash && byte_is u "u"
    then match hex h1, hex h2, hex h3, hex h4 with
         | Some a, Some b, Some c, Some d => ((a * 16 + b) * 16 + c) * 16 + d
         | _, _, _, _ => -1
         end
    else -1
  | _ => -1
  end.

(** The loop of [unquoteBytes] over the text between the quotes.  [skip]
    counts the bytes in front that the previous iteration has already
    consumed (the amount by which it advanced [r] beyond one). *)
Fixpoint unquote_loop (skip : nat) (s : bytes) : option bytes :=
  match s with
  | [] => Some []
  | c :: t =>
    match skip with
    | S k => unquote_loop k t
    | O =>
      let emit (out : bytes) (more : nat) :=
        option_map (fun r => out ++ r) (unquote_loop more t) in
      if Byte.eqb c backslash then
        match t with
        | [] => None
        | e :: _ =>
          if Byte.eqb e quote || Byte.eqb e backslash || byte_is e "/"
             || Byte.eqb e x27
          then emit [e] 1%nat
          else if byte_is e "b" then emit [x08] 1%nat
          else if byte_is e "f" then emit [x0c] 1%nat
          else if byte_is e "n" then emit [x0a] 1%nat
          else if byte_is e "r" then emit [x0d] 1%nat
          else if byte_is e "t" then emit [x09] 1%nat
          else if byte_is e "u" then
            let rr := getu4 s in
            if rr <? 0 then None
            else if utf16.IsSurrogate rr then
              let dec := utf16.DecodeRune rr (getu4 (skipn 6 s)) in
              if negb (dec =? utf8.RuneError)
              then emit (utf8.EncodeRune dec) 11%nat
              else emit (utf8.EncodeRune utf8.RuneError) 5%nat
            else emit (utf8.EncodeRune rr) 5%nat
          else None
        end
      else if Byte.eqb c quote || (code c <? 32)%N then None
      else if (code c <? 128)%N then emit [c] 0%nat
      else
        let '(rr, size) := utf8.DecodeRune s in
        emit (utf8.EncodeRune rr) (size - 1)%nat
    end
  end.

(** [unquote]: the Go string a quoted JSON string literal denotes.  (The
    source first looks for a prefix that needs no rewriting; rewriting such a
    prefix leaves it unchanged, so the loop is run from the start.) *)
Definition unquote (item : bytes) : option bytes :=
  match item with
  | q :: body =>
    if (2 <=? length item)%nat && Byte.eqb q quote
       && Byte.eqb (last item x00) quote
    then unquote_loop 0 (removelast body)
    else None
  | [] => None
  end.

(** ** encoding/json: the scanner (scanner.go) *)

Definition isSpace (c : byte) : bool :=
  Byte.eqb c x20 || Byte.eqb c x09 || Byte.eqb c x0d || Byte.eqb c x0a.

Inductive scanCode : Type :=
| scanContinue | scanBeginLiteral | scanBeginObject | scanObjectKey
| scanObjectValue | scanEndObject | scanBeginArray | scanArrayValue
| scanEndArray | scanSkipSpace | scanEnd | scanError.

Definition scanCode_eqb (a b : scanCode) : bool :=
  match a, b with
  | scanContinue, scanContinue | scanBeginLiteral, scanBeginLiteral
  | scanBeginObject, scanBeginObject | scanObjectKey, scanObjectKey
  | scanObjectValue, scanObjectValue | scanEndObject, scanEndObject
  | scanBeginArray, scanBeginArray | scanArrayValue, scanArrayValue
  | scanEndArray, scanEndArray | scanSkipSpace, scanSkipSpace
  | scanEnd, scanEnd | scanError, scanError => true
  | _, _ => false
  end.

Inductive parseKind : Type :=
| parseObjectKey | parseObjectValue | parseArrayValue.

(** The state functions a scanner's [step] field can hold. *)
Inductive stepFn : Type :=
| stateBeginValueOrEmpty | stateBeginValue | stateBeginStringOrEmpty
| stateBeginString | stateEndValue | stateEndTop
| stateInString | stateInStringEsc | stateInStringEscU | stateInStringEscU1
| stateInStringEscU12 | stateInStringEscU123
| stateNeg | state1 | state0 | stateDot | stateDot0 | stateE | stateESign
| stateE0 | stateT | stateTr | stateTru | stateF | stateFa | stateFal
| stateFals | stateN | stateNu | stateNul | stateError.

(** [parseState] is kept with the innermost level first. *)
Record scanner : Type := mkScanner {
  step : stepFn;
  endTop : bool;
  parseState : list parseKind;
  err : option error
}.

Definition maxNestingDepth : Z := 10000.

Module scan.

Definition reset : scanner := mkScanner stateBeginValue false [] None.

Definition goto (s : scanner) (f : stepFn) : scanner :=
  mkScanner f (endTop s) (parseState s) (err s).

Definition setTop (s : scanner) (k : parseKind) : scanner :=
  mkScanner (step s) (endTop s)
            (match parseState s with _ :: ps => k :: ps | [] => [] end)
            (err s).

Definition error (s : scanner) (c : byte) (context : string)
  : scanner * scanCode :=
  (mkScanner stateError (endTop s) (parseState s)
             (Some (SyntaxError c context)), scanError).

Definition pushParseState (s : scanner) (c : byte) (k : parseKind)
           (successState : scanCode) : scanner * scanCode :=
  let s' := mkScanner (step s) (endTop s) (k :: parseState s) (err s) in
  if Z.of_nat (length (parseState s')) <=? maxNestingDepth
  then (s', successState)
  else error s' c "exceeded max depth".

Definition popParseState (s : scanner) : scanner :=
  let ps := tl (parseState s) in
  match ps with
  | [] => mkScanner stateEndTop true ps (err s)
  | _ => mkScanner stateEndValue (endTop s) ps (err s)
  end.

Definition endTop_fn (s : scanner) (c : byte) : scanner * scanCode :=
  if negb (isSpace c)
  then (fst (error s c "after top-level value"), scanEnd)
  else (s, scanEnd).

Definition endValue_fn (s : scanner) (c : byte) : scanner * scanCode :=
  match parseState s with
  | [] => endTop_fn (mkScanner stateEndTop true [] (err s)) c
  | ps :: _ =>
    if isSpace c then (goto s stateEndValue, scanSkipSpace)
    else match ps with
    | parseObjectKey =>
      if byte_is c ":"
      then (goto (setTop s parseObjectValue) stateBeginValue, scanObjectKey)
      else error s c "after object key"
    | parseObjectValue =>
      if byte_is c ","
      then (goto (setTop s parseObjectKey) stateBeginString, scanObjectValue)
      else if byte_is c "}" then (popParseState s, scanEndObject)
      else error s c "after object key:value pair"
    | parseArrayValue =>
      if byte_is c "," then (goto s stateBeginValue, scanArrayValue)
      else if byte_is c "]" then (popParseState s, scanEndArray)
      else error s c "after array element"
    end
  end.

Definition beginValue_fn (s : scanner) (c : byte) : scanner * scanCode :=
  if isSpace c then (s, scanSkipSpace)
  else if byte_is c "{"
  then pushParseState (goto s stateBeginStringOrEmpty) c parseObjectKey
                      scanBeginObject
  else if byte_is c "["
  then pushParseState (goto s stateBeginValueOrEmpty) c parseArrayValue
                      scanBeginArray
  else if Byte.eqb c quote then (goto s stateInString, scanBeginLiteral)
  else if byte_is c "-" then (goto s stateNeg, scanBeginLiteral)
  else if byte_is c "0" then (goto s state0, scanBeginLiteral)
  else if byte_is c "t" then (goto s stateT, scanBeginLiteral)
  else if byte_is c "f" then (goto s stateF, scanBeginLiteral)
  else if byte_is c "n" then (goto s stateN, scanBeginLiteral)
  else if between "1" "9" c then (goto s state1, scanBeginLiteral)
  else error s c "looking for beginning of value".

Definition beginValueOrEmpty_fn (s : scanner) (c : byte)
  : scanner * scanCode :=
  if isSpace c then (s, scanSkipSpace)
  else if byte_is c "]" then endValue_fn s c
  else beginValue_fn s c.

Definition beginString_fn (s : scanner) (c : byte) : scanner * scanCode :=
  if isSpace c then (s, scanSkipSpace)
  else if Byte.eqb c quote then (goto s stateInString, scanBeginLiteral)
  else error s c "looking for beginning of object key string".

Definition beginStringOrEmpty_fn (s : scanner) (c : byte)
  : scanner * scanCode :=
  if isSpace c then (s, scanSkipSpace)
  else if byte_is c "}" then endValue_fn (setTop s parseObjectValue) c
  else beginString_fn s c.

Definition inString_fn (s : scanner) (c : byte) : scanner * scanCode :=
  if Byte.eqb c quote then (goto s stateEndValue, scanContinue)
  else if Byte.eqb c backslash then (goto s stateInStringEsc, scanContinue)
  else if (code c <? 32)%N then error s c "in string literal"
  else (s, scanContinue).

Definition inStringEsc_fn (s : scanner) (c : byte) : scanner * scanCode :=
  if byte_is c "b" || byte_is c "f" || byte_is c "n" || byte_is c "r"
     || byte_is c "t" || Byte.eqb c backslash || byte_is c "/"
     || Byte.eqb c quote
  then (goto s stateInString, scanContinue)
  else if byte_is c "u" then (goto s stateInStringEscU, scanContinue)
  else error s c "in string escape code".

Definition isHex (c : byte) : bool :=
  between "0" "9" c || between "a" "f" c || between "A" "F" c.

Definition inStringEscU_fn (next : stepFn) (s : scanner) (c : byte)
  : scanner * scanCode :=
  if isHex c then (goto s next, scanContinue)
  else error s c "in \u hexadecimal character escape".

Definition state0_fn (s : scanner) (c : byte) : scanner * scanCode :=
  if byte_is c "." then (goto s stateDot, scanContinue)
  else if byte_is c "e" || byte_is c "E" then (goto s stateE, scanContinue)
  else endValue_fn s c.

Definition state1_fn (s : scanner) (c : byte) : scanner * scanCode :=
  if isDigit c then (goto s state1, scanContinue)
  else state0_fn s c.

Definition neg_fn (s : scanner) (c : byte) : scanner * scanCode :=
  if byte_is c "0" then (goto s state0, scanContinue)
  else if between "1" "9" c then (goto s state1, scanContinue)
  else error s c "in numeric literal".

Definition dot_fn (s : scanner) (c : byte) : scanner * scanCode :=
  if isDigit c then (goto s stateDot0, scanContinue)
  else error s c "after decimal point in numeric literal".

Definition dot0_fn (s : scanner) (c : byte) : scanner * scanCode :=
  if isDigit c then (s, scanContinue)
  else if byte_is c "e" || byte_is c "E" then (goto s stateE, scanContinue)
  else endValue_fn s c.

Definition eSign_fn (s : scanner) (c : byte) : scanner * scanCode :=
  if isDigit c then (goto s stateE0, scanContinue)
  else error s c "in exponent of numeric literal".

Definition e_fn (s : scanner) (c : byte) : scanner * scanCode :=
  if byte_is c "+" || byte_is c "-" then (goto s stateESign, scanContinue)
  else eSign_fn s c.

Definition e0_fn (s : scanner) (c : byte) : scanner * scanCode :=
  if isDigit c then (s, scanContinue)
  else endValue_fn s c.

(** The states spelling out [true], [false] and [null]. *)
Definition letter_fn (want : string) (next : stepFn) (context : string)
           (s : scanner) (c : byte) : scanner * scanCode :=
  if byte_is c want then (goto s next, scanContinue)
  else error s c context.

(** [s.step(s, c)] *)
Definition step_fn (s : scanner) (c : byte) : scanner * scanCode :=
  match step s with
  | stateBeginValueOrEmpty => beginValueOrEmpty_fn s c
  | stateBeginValue => beginValue_fn s c
  | stateBeginStringOrEmpty => beginStringOrEmpty_fn s c
  | stateBeginString => beginString_fn s c
  | stateEndValue => endValue_fn s c
  | stateEndTop => endTop_fn s c
  | stateInString => inString_fn s c
  | stateInStringEsc => inStringEsc_fn s c
  | stateInStringEscU => inStringEscU_fn stateInStringEscU1 s c
  | stateInStringEscU1 => inStringEscU_fn stateInStringEscU12 s c
  | stateInStringEscU12 => inStringEscU_fn stateInStringEscU123 s c
  | stateInStringEscU123 => inStringEscU_fn stateInString s c
  | stateNeg => neg_fn s c
  | state1 => state1_fn s c
  | state0 => state0_fn s c
  | stateDot => dot_fn s c
  | stateDot0 => dot0_fn s c
  | stateE => e_fn s c
  | stateESign => eSign_fn s c
  | stateE0 => e0_fn s c
  | stateT => letter_fn "r" stateTr "in literal true (expecting 'r')" s c
  | stateTr => letter_fn "u" stateTru "in literal true (expecting 'u')" s c
  | stateTru =>
    letter_fn "e" stateEndValue "in literal true (expecting 'e')" s c
  | stateF => letter_fn "a" stateFa "in literal false (expecting 'a')" s c
  | stateFa => letter_fn "l" stateFal "in literal false (expecting 'l')" s c
  | stateFal =>
    letter_fn "s" stateFals "in literal false (expecting 's')" s c
  | stateFals =>
    letter_fn "e" stateEndValue "in literal false (expecting 'e')" s c
  | stateN => letter_fn "u" stateNu "in literal null (expecting 'u')" s c
  | stateNu => letter_fn "l" stateNul "in literal null (expecting 'l')" s c
  | stateNul =>
    letter_fn "l" stateEndValue "in literal null (expecting 'l')" s c
  | stateError => (s, scanError)
  end.

(** [s.eof()] *)
Definition eof (s : scanner) : scanner * scanCode :=
  match err s with
  | Some _ => (s, scanError)
  | None =>
    if endTop s then (s, scanEnd)
    else
      let s' := fst (step_fn s x20) in
      if endTop s' then (s', scanEnd)
      else match err s' with
           | Some _ => (s', scanError)
           | None =>
             (mkScanner (step s') (endTop s') (parseState s')
                (Some (SyntaxErrorMsg "unexpected end of JSON input")),
              scanError)
           end
  end.

End scan.

(** [checkValid] and [json.Valid] *)
Fixpoint checkValid_loop (data : bytes) (s : scanner) : option error :=
  match data with
  | [] => match scan.eof s with
          | (s', scanError) => err s'
          | _ => None
          end
  | c :: rest =>
    match scan.step_fn s c with
    | (s', scanError) => err s'
    | (s', _) => checkValid_loop rest s'
    end
  end.

Definition checkValid (data : bytes) : option error :=
  checkValid_loop data scan.reset.

Definition Valid (data : bytes) : bool :=
  match checkValid data with None => true | Some _ => false end.

(** ** encoding/json: the streaming decoder (stream.go)

    The decoder reads from a [bytes.Buffer] holding the whole input.  Its
    window [buf], read position [scanp] and count [scanned] of bytes already
    dropped from the window are modelled by the whole input [buf] and the
    absolute position [scanp]; [InputOffset], which is [scanned + scanp] in
    the source, is then [scanp].  The sticky [err] field is left out: the
    callers modelled here return at the first error and never call the
    decoder again. *)

Inductive tokState : Type :=
| tokenTopValue | tokenArrayStart | tokenArrayValue | tokenArrayComma
| tokenObjectStart | tokenObjectKey | tokenObjectColon | tokenObjectValue
| tokenObjectComma.

Record Decoder : Type := mkDecoder {
  buf : bytes;
  scanp : nat;
  tokenState : tokState;
  tokenStack : list tokState   (* innermost first *)
}.

(** [jsonToken] is the type [json.Token]: [Delim], [bool], [float64], [string] or [nil].  A number
    is kept as its literal: the callers only ever compare a token with a
    string. *)
Inductive jsonToken : Type :=
| Delim (c : byte)
| TBool (b : bool)
| TNumber (lit : bytes)
| TString (s : bytes)
| TNil.

(** What a decoder method hands back: a value and the decoder after the
    call, or the error. *)
Inductive result (A : Type) : Type :=
| Ok (a : A) (dec : Decoder)
| Err (e : error).

Arguments Ok {A} a dec.
Arguments Err {A} e.

Definition NewDecoder (input : bytes) : Decoder :=
  mkDecoder input 0 tokenTopValue [].

Definition InputOffset (dec : Decoder) : Z := Z.of_nat (scanp dec).

Definition unread (dec : Decoder) : bytes := skipn (scanp dec) (buf dec).

Definition at_ (dec : Decoder) (i : nat) (st : tokState)
           (stack : list tokState) : Decoder :=
  mkDecoder (buf dec) i st stack.

Definition advance (dec : Decoder) (st : tokState) : Decoder :=
  at_ dec (S (scanp dec)) st (tokenStack dec).

Fixpoint peek_loop (l : bytes) (i : nat) : option (byte * nat) :=
  match l with
  | [] => None
  | c :: t => if isSpace c then peek_loop t (S i) else Some (c, i)
  end.

(** [dec.peek()]: the next byte that is not white space, with [scanp] moved
    onto it; [io.EOF] when the input is exhausted. *)
Definition peek (dec : Decoder) : result byte :=
  match peek_loop (unread dec) (scanp dec) with
  | Some (c, i) => Ok c (at_ dec i (tokenState dec) (tokenStack dec))
  | None => Err io_EOF
  end.

Definition nonSpace (b : bytes) : bool := existsb (fun c => negb (isSpace c)) b.

Definition scan_err (s : scanner) : error :=
  match err s with
  | Some e => e
  | None => SyntaxErrorMsg "scan error"
  end.

(** The loop of [dec.readValue()]: [l] is what is left to scan, [n] the
    number of bytes scanned so far and [window] the decoder's buffer when the
    reader reports [io.EOF], which starts at the value being read. *)
Fixpoint readValue_loop (l : bytes) (s : scanner) (n : nat) (window : bytes)
  : nat + error :=
  match l with
  | [] =>
    if scanCode_eqb (snd (scan.step_fn s x20)) scanEnd then inl n
    else if nonSpace window then inr io_ErrUnexpectedEOF
    else inr io_EOF
  | c :: t =>
    match scan.step_fn s c with
    | (s', scanEnd) => inl n
    | (s', scanEndObject) | (s', scanEndArray) =>
      match scan.endValue_fn s' x20 with
      | (_, scanEnd) => inl (S n)
      | (s'', _) => readValue_loop t s'' (S n) window
      end
    | (s', scanError) => inr (scan_err s')
    | (s', _) => readValue_loop t s' (S n) window
    end
  end.

Definition readValue (dec : Decoder) : nat + error :=
  readValue_loop (unread dec) scan.reset 0 (unread dec).

Definition tokenValueAllowed (dec : Decoder) : bool :=
  match tokenState dec with
  | tokenTopValue | tokenArrayStart | tokenArrayValue | tokenObjectValue => true
  | _ => false
  end.

Definition valueEnd (st : tokState) : tokState :=
  match st with
  | tokenArrayStart | tokenArrayValue => tokenArrayComma
  | tokenObjectValue => tokenObjectComma
  | st => st
  end.

Definition tokenValueEnd (dec : Decoder) : Decoder :=
  at_ dec (scanp dec) (valueEnd (tokenState dec)) (tokenStack dec).

Definition tokenPrepareForDecode (dec : Decoder) : result unit :=
  match tokenState dec with
  | tokenArrayComma =>
    match peek dec with
    | Err e => Err e
    | Ok c dec =>
      if negb (byte_is c ",")
      then Err (SyntaxErrorMsg "expected comma after array element")
      else Ok tt (advance dec tokenArrayValue)
    end
  | tokenObjectColon =>
    match peek dec with
    | Err e => Err e
    | Ok c dec =>
      if negb (byte_is c ":")
      then Err (SyntaxErrorMsg "expected colon after object key")
      else Ok tt (advance dec tokenObjectValue)
    end
  | _ => Ok tt dec
  end.

(** [dec.Decode] up to the call of [unmarshal]: the text of one whole value,
    with the decoder moved past it. *)
Definition Decode_text (dec : Decoder) : result bytes :=
  match tokenPrepareForDecode dec with
  | Err e => Err e
  | Ok _ dec =>
    if negb (tokenValueAllowed dec)
    then Err (SyntaxErrorMsg "not at beginning of value")
    else match readValue dec with
         | inr e => Err e
         | inl n =>
           Ok (firstn n (unread dec))
              (tokenValueEnd (at_ dec (scanp dec + n) (tokenState dec)
                                  (tokenStack dec)))
         end
  end.

(** Unmarshalling into an [interface{}] can only fail in [convertNumber];
    the first such error is kept ([saveError]) and returned at the end.  A
    number literal is cut out as [rescanLiteral] does, a maximal run of
    [0-9 . e E + -]. *)
Inductive lexMode : Type :=
| Outside | InStr | InStrEsc | InNum (lit : bytes).

Definition isNumberByte (c : byte) : bool :=
  isDigit c || byte_is c "." || byte_is c "e" || byte_is c "E"
  || byte_is c "+" || byte_is c "-".

Definition convertNumber (lit : bytes) : option error :=
  if strconv.out_of_range lit
  then Some (UnmarshalTypeError (str "number " ++ lit))
  else None.

Definition outside_step (c : byte) : lexMode :=
  if Byte.eqb c quote then InStr
  else if byte_is c "-" || isDigit c then InNum [c]
  else Outside.

Fixpoint savedError (data : bytes) (m : lexMode) : option error :=
  match data with
  | [] => match m with InNum lit => convertNumber lit | _ => None end
  | c :: t =>
    match m with
    | Outside => savedError t (outside_step c)
    | InStr =>
      savedError t (if Byte.eqb c backslash then InStrEsc
                    else if Byte.eqb c quote then Outside else InStr)
    | InStrEsc => savedError t InStr
    | InNum lit =>
      if isNumberByte c then savedError t (InNum (lit ++ [c]))
      else match convertNumber lit with
           | Some e => Some e
           | None => savedError t (outside_step c)
           end
    end
  end.

(** [dec.Decode(&i)] for [var i interface{}]. *)
Definition Decode (dec : Decoder) : result unit :=
  match Decode_text dec with
  | Err e => Err e
  | Ok data dec =>
    match savedError data Outside with
    | Some e => Err e
    | None => Ok tt dec
    end
  end.

(** [literalInterface] on the literal [Token] has just read. *)
Definition literalInterface (item : bytes) : go (jsonToken * option error) :=
  match item with
  | [] => Panic "JSON decoder out of sync - data changing underfoot?"
  | c :: _ =>
    if byte_is c "n" then Ret (TNil, None)
    else if byte_is c "t" then Ret (TBool true, None)
    else if byte_is c "f" then Ret (TBool false, None)
    else if Byte.eqb c quote then
      match unquote item with
      | Some s => Ret (TString s, None)
      | None => Panic "JSON decoder out of sync - data changing underfoot?"
      end
    else if negb (byte_is c "-") && negb (isDigit c)
    then Panic "JSON decoder out of sync - data changing underfoot?"
    else Ret (TNumber item, convertNumber item)
  end.

Definition tokenError (dec : Decoder) (c : byte) : error :=
  SyntaxError c
    match tokenState dec with
    | tokenTopValue | tokenArrayStart | tokenArrayValue | tokenObjectValue =>
      " looking for beginning of value"
    | tokenArrayComma => " after array element"
    | tokenObjectKey => " looking for beginning of object key string"
    | tokenObjectColon => " after object key"
    | tokenObjectComma => " after object key:value pair"
    | tokenObjectStart => ""
    end.

Definition tokState_eqb (a b : tokState) : bool :=
  match a, b with
  | tokenTopValue, tokenTopValue | tokenArrayStart, tokenArrayStart
  | tokenArrayValue, tokenArrayValue | tokenArrayComma, tokenArrayComma
  | tokenObjectStart, tokenObjectStart | tokenObjectKey, tokenObjectKey
  | tokenObjectColon, tokenObjectColon | tokenObjectValue, tokenObjectValue
  | tokenObjectComma, tokenObjectComma => true
  | _, _ => false
  end.

Definition in_state (dec : Decoder) (st : tokState) : bool :=
  tokState_eqb (tokenState dec) st.

(** The value branch of [Token]: [Decode] into a fresh variable. *)
Definition Token_value (dec : Decoder) : go (result jsonToken) :=
  match Decode_text dec with
  | Err e => Ret (Err e)
  | Ok data dec =>
    x <- literalInterface data;;
    match x with
    | (_, Some e) => Ret (Err e)
    | (tok, None) => Ret (Ok tok dec)
    end
  end.

(** Closing a bracket: back to the enclosing state, whose value has ended. *)
Definition Token_close (dec : Decoder) (c : byte) : go (result jsonToken) :=
  match tokenStack dec with
  | [] => Panic "index out of range"
  | st :: stack =>
    Ret (Ok (Delim c) (at_ dec (S (scanp dec)) (valueEnd st) stack))
  end.

(** [dec.Token()]; each turn of its loop consumes a byte, so the fuel given
    in [Token] is never used up. *)
Fixpoint Token_loop (fuel : nat) (dec : Decoder) : go (result jsonToken) :=
  match fuel with
  | O => OutOfFuel
  | S fuel =>
    match peek dec with
    | Err e => Ret (Err e)
    | Ok c dec =>
      if byte_is c "[" then
        if negb (tokenValueAllowed dec) then Ret (Err (tokenError dec c))
        else Ret (Ok (Delim c)
                     (at_ dec (S (scanp dec)) tokenArrayStart
                          (tokenState dec :: tokenStack dec)))
      else if byte_is c "]" then
        if negb (in_state dec tokenArrayStart)
           && negb (in_state dec tokenArrayComma)
        then Ret (Err (tokenError dec c))
        else Token_close dec c
      else if byte_is c "{" then
        if negb (tokenValueAllowed dec) then Ret (Err (tokenError dec c))
        else Ret (Ok (Delim c)
                     (at_ dec (S (scanp dec)) tokenObjectStart
                          (tokenState dec :: tokenStack dec)))
      else if byte_is c "}" then
        if negb (in_state dec tokenObjectStart)
           && negb (in_state dec tokenObjectComma)
        then Ret (Err (tokenError dec c))
        else Token_close dec c
      else if byte_is c ":" then
        if negb (in_state dec tokenObjectColon)
        then Ret (Err (tokenError dec c))
        else Token_loop fuel (advance dec tokenObjectValue)
      else if byte_is c "," then
        if in_state dec tokenArrayComma
        then Token_loop fuel (advance dec tokenArrayValue)
        else if in_state dec tokenObjectComma
        then Token_loop fuel (advance dec tokenObjectKey)
        else Ret (Err (tokenError dec c))
      else if Byte.eqb c quote
              && (in_state dec tokenObjectStart || in_state dec tokenObjectKey)
      then
        (* an object key: decoded as a top-level string *)
        r <- Token_value (at_ dec (scanp dec) tokenTopValue (tokenStack dec));;
        match r with
        | Err e => Ret (Err e)
        | Ok x dec' =>
          Ret (Ok x (at_ dec' (scanp dec') tokenObjectColon (tokenStack dec')))
        end
      else
        if negb (tokenValueAllowed dec) then Ret (Err (tokenError dec c))
        else Token_value dec
    end
  end.

Definition Token (dec : Decoder) : go (result jsonToken) :=
  Token_loop (S (length (buf dec))) dec.

(** [dec.More()] *)
Definition More (dec : Decoder) : bool :=
  match peek dec with
  | Ok c _ => negb (byte_is c "]") && negb (byte_is c "}")
  | Err _ => false
  end.

(** ** util/jsonutil *)

Definition comma : byte := x2c.
Definition colon : byte := x3a.
Definition sqBracket : byte := x5d.
Definition closingCurlyBracket : byte := x7d.

(** [token == elementName]: an interface value equals a string when its
    dynamic type is [string] and the strings are equal. *)
Definition token_eq (token : jsonToken) (elementName : bytes) : bool :=
  match token with
  | TString s => bytes_eqb s elementName
  | _ => false
  end.

(** What [FindElement] returns. *)
Definition found_t : Type := bool * Z * Z * option error.

(** How the token loop of [FindElement] is left: by one of its [return]s or
    by [break], with the values of the local variables. *)
Inductive loop_exit : Type :=
| Return (r : found_t)
| Break (found : bool) (startIndex endIndex : Z).

(** Every loop below runs on [loop_fuel extension]; each of them moves an
    index over [extension] one way, a byte or more a turn. *)
Definition loop_fuel (extension : slice) : nat := S (length (elems extension)).

(** Lines 49-56: find the index of the comma. *)
Fixpoint comma_loop (fuel : nat) (extension : slice) (endIndex : Z) : go Z :=
  match fuel with
  | O => OutOfFuel
  | S fuel =>
    c <- index extension endIndex;;
    if Byte.eqb c comma then Ret (endIndex + 1)
    else comma_loop fuel extension (endIndex + 1)
  end.

(** Lines 28-63. *)
Fixpoint token_loop (fuel : nat) (extension : slice) (elementName : bytes)
         (dec : Decoder) (startIndex : Z) : go loop_exit :=
  match fuel with
  | O => OutOfFuel
  | S fuel =>
    r <- Token dec;;
    match r with
    | Err e =>
      if is_EOF e then Ret (Break false startIndex 0)
      else Ret (Return (false, -1, -1, Some e))
    | Ok token dec =>
      if token_eq token elementName then
        match Decode dec with
        | Err e => Ret (Return (false, -1, -1, Some e))
        | Ok _ dec =>
          let endIndex := InputOffset dec in
          if More dec then
            c <- index extension startIndex;;
            let startIndex :=
              if Byte.eqb c comma then startIndex + 1 else startIndex in
            endIndex <- comma_loop (loop_fuel extension) extension endIndex;;
            Ret (Break true startIndex endIndex)
          else Ret (Break true startIndex endIndex)
        end
      else token_loop fuel extension elementName dec (InputOffset dec)
    end
  end.

(** Lines 68-75: find the beginning of the nested element. *)
Fixpoint colon_loop (fuel : nat) (extension : slice) (startIndex : Z) : go Z :=
  match fuel with
  | O => OutOfFuel
  | S fuel =>
    c <- index extension startIndex;;
    if Byte.eqb c colon then Ret (startIndex + 1)
    else colon_loop fuel extension (startIndex + 1)
  end.

(** Lines 76-92: walk back from the end of the element. *)
Fixpoint back_loop (fuel : nat) (extension : slice) (endIndex : Z) : go Z :=
  match fuel with
  | O => OutOfFuel
  | S fuel =>
    let endIndex := if endIndex =? len extension then endIndex - 1
                    else endIndex in
    c <- index extension endIndex;;
    if Byte.eqb c sqBracket || Byte.eqb c closingCurlyBracket
    then Ret endIndex
    else
      c' <- index extension endIndex;;
      if Byte.eqb c' comma then Ret (endIndex - 1)
      else back_loop fuel extension (endIndex - 1)
  end.

Fixpoint FindElement (extension : slice) (elementNames : list bytes)
  : go found_t :=
  match elementNames with
  | [] => Panic "index out of range"
  | elementName :: names =>
    x <- token_loop (loop_fuel extension) extension elementName
                    (NewDecoder (elems extension)) 0;;
    match x with
    | Return r => Ret r
    | Break found startIndex endIndex =>
      if found then
        match names with
        | [] => Ret (found, startIndex, endIndex, None)
        | _ :: _ =>
          startIndex <- colon_loop (loop_fuel extension) extension startIndex;;
          endIndex <- back_loop (loop_fuel extension) extension endIndex;;
          if found then
            window <- subslice extension startIndex endIndex;;
            r <- FindElement window names;;
            let '(found, startInd, endInd, err) := r in
            Ret (found, startIndex + startInd, startIndex + endInd, err)
          else Ret (found, startIndex, startIndex, None)
        end
      else Ret (found, startIndex, endIndex, None)
    end
  end.

(** What [DropElement] returns, and with it the contents of the backing
    array of [extension] (from [extension[0]] to its capacity) after the
    call: the caller still holds that array. *)
Record dropped : Type := mkDropped {
  result_slice : slice;
  result_err : option error;
  array_after : bytes
}.

Definition DropElement (extension : slice) (elementNames : list bytes)
  : go dropped :=
  r <- FindElement extension elementNames;;
  let '(found, startIndex, endIndex, err) := r in
  match err with
  | Some e => Ret (mkDropped nil_slice (Some e) (backing extension))
  | None =>
    if found then
      dst <- slice_to extension startIndex;;
      src <- slice_from extension endIndex;;
      let '(res, arr) := append_shared dst (elems src) in
      Ret (mkDropped res None arr)
    else Ret (mkDropped extension None (backing extension))
  end.

(** The tokens of an input, read until [Token] fails, each with the decoder
    after it, and the error that ended the stream. *)
Fixpoint token_stream (fuel : nat) (dec : Decoder)
  : go (list (jsonToken * Decoder) * error) :=
  match fuel with
  | O => OutOfFuel
  | S fuel =>
    r <- Token dec;;
    match r with
    | Err e => Ret ([], e)
    | Ok token dec' =>
      rest <- token_stream fuel dec';;
      Ret ((token, dec') :: fst rest, snd rest)
    end
  end.

Definition tokens (input : bytes) : go (list (jsonToken * Decoder) * error) :=
  token_stream (S (length input)) (NewDecoder input).

(** [DropElement] on a byte string with no spare capacity, keeping only the
    returned bytes and error. *)
Definition DropElement_bytes (b : bytes) (elementNames : list bytes)
  : go (bytes * option error) :=
  d <- DropElement (slice_of b) elementNames;;
  Ret (elems (result_slice d), result_err d).

(** Go's [b[:i]] and [b[j:]] on byte strings, for stating results. *)
Definition upto (b : bytes) (i : Z) : bytes := firstn (Z.to_nat i) b.
Definition from (b : bytes) (j : Z) : bytes := skipn (Z.to_nat j) b.

(** ** strings (the functions [tryExtractErrorMessage] calls)

    A Go string is its bytes.  [find] and [find_last] give the position of
    the first and of the last occurrence; [Index] and [LastIndex] return it
    as an [int], -1 when there is none. *)

Module strings.

Fixpoint HasPrefix (s prefix : bytes) {struct prefix} : bool :=
  match prefix, s with
  | [], _ => true
  | p :: prefix', c :: s' => Byte.eqb c p && HasPrefix s' prefix'
  | _ :: _, [] => false
  end.

Fixpoint find (s substr : bytes) : option nat :=
  match s with
  | [] => if HasPrefix [] substr then Some 0%nat else None
  | _ :: t => if HasPrefix s substr then Some 0%nat
              else option_map S (find t substr)
  end.

Fixpoint find_last (s substr : bytes) : option nat :=
  match s with
  | [] => if HasPrefix [] substr then Some 0%nat else None
  | _ :: t => match find_last t substr with
              | Some n => Some (S n)
              | None => if HasPrefix s substr then Some 0%nat else None
              end
  end.

Definition position (r : option nat) : Z :=
  match r with
  | Some n => Z.of_nat n
  | None => -1
  end.

Definition Index (s substr : bytes) : Z := position (find s substr).

Definition LastIndex (s substr : bytes) : Z := position (find_last s substr).

Definition Contains (s substr : bytes) : bool := 0 <=? Index s substr.

End strings.

(** ** util/jsonutil: tryExtractErrorMessage *)

(** [s[lo:hi]] on a string, with the run-time bounds check. *)
Definition substring (s : bytes) (lo hi : Z) : go bytes :=
  if (0 <=? lo) && (lo <=? hi) && (hi <=? Z.of_nat (length s))
  then Ret (firstn (Z.to_nat (hi - lo)) (skipn (Z.to_nat lo) s))
  else Panic "slice bounds out of range".

(** [s[lo:]] *)
Definition substring_from (s : bytes) (lo : Z) : go bytes :=
  substring s lo (Z.of_nat (length s)).

(** The two texts the function looks for. *)
Definition end_marker : bytes := str ", error found in #".
Definition op_separator : bytes := str ": ".

Definition isLikelyDetailedErrorMessage (msg : bytes) : bool :=
  negb (strings.HasPrefix msg (str "request.")).

(** Lines 181-202: collect the operations in front of the message.  Each
    turn that goes on moves [msgStartIndex] forward, so the fuel given in
    [tryExtractErrorMessage] is never used up. *)
Fixpoint operation_loop (fuel : nat) (msg : bytes) (msgEndIndex : Z)
         (operationStack : list bytes) (msgStartIndex : Z)
  : go (list bytes * Z) :=
  match fuel with
  | O => OutOfFuel
  | S fuel =>
    rest <- substring_from msg (msgStartIndex + 2);;
    let msgStartIndexNext := strings.Index rest op_separator in
    (* no more matches *)
    if msgStartIndexNext =? -1 then Ret (operationStack, msgStartIndex)
    (* matches occur after the end message marker *)
    else if msgEndIndex <=? msgStartIndex + msgStartIndexNext
    then Ret (operationStack, msgStartIndex)
    else
      match_ <- substring msg (msgStartIndex + 2)
                          (msgStartIndex + 2 + msgStartIndexNext);;
      (* match should not contain a space *)
      if strings.Contains match_ (str " ")
      then Ret (operationStack, msgStartIndex)
      else operation_loop fuel msg msgEndIndex (operationStack ++ [match_])
                          (msgStartIndex + (msgStartIndexNext + 2))
  end.

(** [operationStack[i]] *)
Definition stack_at (operationStack : list bytes) (i : Z) : go bytes :=
  if (0 <=? i) && (i <? Z.of_nat (length operationStack))
  then match nth_error operationStack (Z.to_nat i) with
       | Some op => Ret op
       | None => Panic "index out of range"
       end
  else Panic "index out of range".

(** [tryExtractErrorMessage(err)], on [msg = err.Error()]. *)
Definition tryExtractErrorMessage (msg : bytes) : go bytes :=
  let msgEndIndex := strings.LastIndex msg end_marker in
  if msgEndIndex =? -1 then Ret msg
  else
    let msgStartIndex := strings.Index msg op_separator in
    if msgStartIndex =? -1 then Ret msg
    else
      first_op <- substring msg 0 msgStartIndex;;
      st <- operation_loop (S (length msg)) msg msgEndIndex [first_op]
                           msgStartIndex;;
      let '(operationStack, msgStartIndex) := st in
      detailed <-
        (if 1 <? Z.of_nat (length operationStack)
         then tail <- substring_from msg (msgStartIndex + 2);;
              Ret (isLikelyDetailedErrorMessage tail)
         else Ret false);;
      if detailed then
        op <- stack_at operationStack (Z.of_nat (length operationStack) - 2);;
        text <- substring msg (msgStartIndex + 2) msgEndIndex;;
        Ret (str "cannot unmarshal " ++ op ++ str ": " ++ text)
      else substring msg (msgStartIndex + 2) msgEndIndex.

(** ** Vocabulary of the statements *)

(** The read position lies inside the input. *)
Definition wf_dec (dec : Decoder) : Prop :=
  (scanp dec <= length (buf dec))%nat.

(** [dec'] reads the same input as [dec], not before it. *)
Definition follows (dec dec' : Decoder) : Prop :=
  buf dec' = buf dec /\ (scanp dec <= scanp dec' <= length (buf dec))%nat.

(** ... and at least one byte further. *)
Definition advances (dec dec' : Decoder) : Prop :=
  buf dec' = buf dec /\ (scanp dec < scanp dec' <= length (buf dec))%nat.

(** [extension[:s] ++ extension[e:]] *)
Definition spliced (extension : slice) (s e : Z) : bytes :=
  upto (elems extension) s ++ from (elems extension) e.

Definition no_match (name : bytes) (toks : list (jsonToken * Decoder)) : Prop :=
  Forall (fun t => token_eq (fst t) name = false) toks.

(** The offset [FindElement] holds in [startIndex] after reading [toks]. *)
Definition last_offset (s0 : Z) (toks : list (jsonToken * Decoder)) : Z :=
  fold_left (fun _ t => InputOffset (snd t)) toks s0.

(** [DropElement] turns [input] into [output], without an error, whatever
    spare capacity the slice holding [input] has. *)
Definition drops_to (input : bytes) (names : list bytes) (output : bytes)
  : Prop :=
  forall room : bytes,
  exists d, DropElement (mkSlice input room) names = Ret d /\
            elems (result_slice d) = output /\
            result_err d = None.

(** An error reported while [FindElement] scans [input] for [name]: either
    the tokenizer fails, with an error other than [io.EOF], before any token
    equals [name]; or the value after the first token equal to [name] fails
    to decode. *)
Definition reports (input name : bytes) (e : error) : Prop :=
  (exists toks,
      tokens input = Ret (toks, e) /\ is_EOF e = false /\ no_match name toks)
  \/
  (exists pre tok d post e',
      tokens input = Ret (pre ++ (tok, d) :: post, e') /\
      no_match name pre /\ token_eq tok name = true /\ Decode d = Err e).

(** [sub] occurs in [s]. *)
Definition occurs (sub s : bytes) : Prop :=
  exists a b, s = a ++ sub ++ b.

(** [sub] occurs in [s] at position [n]. *)
Definition occurs_at (sub s : bytes) (n : nat) : Prop :=
  strings.HasPrefix (skipn n s) sub = true.

(** [s[lo:hi]] for offsets known to be in range. *)
Definition cut (s : bytes) (lo hi : nat) : bytes :=
  firstn (hi - lo) (skipn lo s).

(** Operations in front of a message text, each followed by [": "]. *)
Fixpoint chain (ops : list bytes) (text : bytes) : bytes :=
  match ops with
  | [] => text
  | op :: ops' => op ++ op_separator ++ chain ops' text
  end.

(** The last but one of a list of operations. *)
Definition penultimate (ops : list bytes) : bytes :=
  nth (length ops - 2) ops [].

Definition no_space (op : bytes) : Prop :=
  strings.find op (str " ") = None.

(** * Properties *)

(** ** Slices and indexing *)

Lemma index_inv (s : slice) (i : Z) (c : byte) :
  index s i = Ret c -> 0 <= i < len s.
Proof.
  unfold index.
  destruct (0 <=? i) eqn:Hlo; destruct (i <? len s) eqn:Hhi; simpl;
    try discriminate.
  intros _. lia.
Qed.

Lemma index_not_fuel (s : slice) (i : Z) : index s i <> OutOfFuel.
Proof.
  unfold index.
  destruct ((0 <=? i) && (i <? len s)); [|discriminate].
  destruct (nth_error (elems s) (Z.to_nat i)); discriminate.
Qed.

Lemma subslice_inv (s w : slice) (lo hi : Z) :
  subslice s lo hi = Ret w ->
  0 <= lo <= hi /\ hi <= cap s /\
  elems w = firstn (Z.to_nat (hi - lo)) (skipn (Z.to_nat lo) (backing s)) /\
  spare w = skipn (Z.to_nat hi) (backing s).
Proof.
  unfold subslice.
  destruct (0 <=? lo) eqn:H1; destruct (lo <=? hi) eqn:H2;
    destruct (hi <=? cap s) eqn:H3; simpl; try discriminate.
  intros H. inversion H; subst; simpl. repeat split; lia.
Qed.

Lemma subslice_len (s w : slice) (lo hi : Z) :
  subslice s lo hi = Ret w -> len w = hi - lo.
Proof.
  intros H. apply subslice_inv in H. destruct H as (Hlo & Hhi & He & _).
  unfold len. rewrite He. unfold cap in Hhi.
  rewrite length_firstn, length_skipn. lia.
Qed.

Lemma len_le_cap (s : slice) : len s <= cap s.
Proof. unfold len, cap, backing. rewrite length_app. lia. Qed.

(** ** The decoder only moves forward, inside its input *)

Lemma advances_follows dec dec' : advances dec dec' -> follows dec dec'.
Proof. unfold advances, follows. intuition lia. Qed.

Lemma follows_trans_adv d1 d2 d3 :
  follows d1 d2 -> advances d2 d3 -> advances d1 d3.
Proof.
  unfold advances, follows. intros (E1 & B1) (E2 & B2).
  rewrite E1 in *. split; [congruence | lia].
Qed.

Lemma peek_loop_inv (l : bytes) :
  forall i c j, peek_loop l i = Some (c, j) ->
                (i <= j < i + length l)%nat /\ isSpace c = false.
Proof.
  induction l as [|a l IH]; simpl; intros i c j H; [discriminate|].
  destruct (isSpace a) eqn:Ha.
  - apply IH in H. intuition lia.
  - inversion H; subst. split; [lia | assumption].
Qed.

Lemma length_unread dec :
  length (unread dec) = (length (buf dec) - scanp dec)%nat.
Proof. unfold unread. apply length_skipn. Qed.

Lemma peek_inv dec c dec' :
  peek dec = Ok c dec' ->
  buf dec' = buf dec /\ tokenState dec' = tokenState dec /\
  tokenStack dec' = tokenStack dec /\
  (scanp dec <= scanp dec' < length (buf dec))%nat.
Proof.
  unfold peek.
  destruct (peek_loop (unread dec) (scanp dec)) as [[c0 i]|] eqn:Hp;
    [|discriminate].
  intros H. inversion H; subst; simpl.
  apply peek_loop_inv in Hp. rewrite length_unread in Hp.
  repeat split; lia.
Qed.

Lemma readValue_loop_inv (l : bytes) :
  forall s n w m, readValue_loop l s n w = inl m ->
                  (n <= m <= n + length l)%nat.
Proof.
  induction l as [|a l IH]; simpl; intros s n w m H.
  - destruct (scanCode_eqb _ _); [inversion H; lia|].
    destruct (nonSpace w); discriminate.
  - destruct (scan.step_fn s a) as [s' code].
    destruct code; try (apply IH in H; lia); try (inversion H; lia);
      try discriminate;
      destruct (scan.endValue_fn s' x20) as [s'' c2];
      destruct c2; try (apply IH in H; lia); inversion H; lia.
Qed.

(** The first byte of a value never ends it. *)
Lemma first_step_code (c : byte) :
  match snd (scan.step_fn scan.reset c) with
  | scanEnd | scanEndObject | scanEndArray => False
  | _ => True
  end.
Proof. destruct c; vm_compute; exact I. Qed.

Lemma readValue_inv dec m :
  readValue dec = inl m -> (1 <= m <= length (unread dec))%nat.
Proof.
  unfold readValue.
  destruct (unread dec) as [|c t] eqn:Hu.
  - vm_compute. discriminate.
  - pose proof (first_step_code c) as Hc.
    cbn [readValue_loop].
    destruct (scan.step_fn scan.reset c) as [s' code].
    simpl in Hc.
    destruct code; try contradiction; try discriminate;
      intros H; apply readValue_loop_inv in H; simpl; lia.
Qed.

Lemma tokenPrepareForDecode_inv dec dec' :
  wf_dec dec -> tokenPrepareForDecode dec = Ok tt dec' -> follows dec dec'.
Proof.
  unfold tokenPrepareForDecode, wf_dec, follows. intros Hwf.
  destruct (tokenState dec);
    try (intros H; inversion H; subst; (split; [reflexivity | lia]));
    destruct (peek dec) as [c d|e] eqn:Hp; try discriminate;
    apply peek_inv in Hp; destruct Hp as (Hb & _ & _ & Hs);
    destruct (negb _); try discriminate;
    intros H; inversion H; subst; simpl; (split; [assumption | lia]).
Qed.

Lemma Decode_text_inv dec data dec' :
  wf_dec dec -> Decode_text dec = Ok data dec' -> advances dec dec'.
Proof.
  unfold Decode_text. intros Hwf.
  destruct (tokenPrepareForDecode dec) as [[] d|e] eqn:Hp; [|discriminate].
  apply tokenPrepareForDecode_inv in Hp; [|assumption].
  destruct (negb (tokenValueAllowed d)); [discriminate|].
  destruct (readValue d) as [n|e] eqn:Hr; [|discriminate].
  apply readValue_inv in Hr. rewrite length_unread in Hr.
  intros H. inversion H; subst; clear H.
  destruct Hp as (Hb & Hs). unfold advances; simpl.
  rewrite Hb in *. split; [reflexivity | lia].
Qed.

Lemma Decode_inv dec dec' :
  wf_dec dec -> Decode dec = Ok tt dec' -> advances dec dec'.
Proof.
  unfold Decode. intros Hwf.
  destruct (Decode_text dec) as [data d|e] eqn:Hd; [|discriminate].
  destruct (savedError data Outside); [discriminate|].
  intros H. inversion H; subst. eapply Decode_text_inv; eassumption.
Qed.

Lemma literalInterface_not_fuel item : literalInterface item <> OutOfFuel.
Proof.
  unfold literalInterface. destruct item as [|c t]; [discriminate|].
  repeat match goal with
         | |- context [if ?b then _ else _] => destruct b
         | |- context [match unquote ?x with _ => _ end] => destruct (unquote x)
         end; discriminate.
Qed.

Lemma Token_value_inv dec tok dec' :
  wf_dec dec -> Token_value dec = Ret (Ok tok dec') -> advances dec dec'.
Proof.
  unfold Token_value. intros Hwf.
  destruct (Decode_text dec) as [data d|e] eqn:Hd; [|discriminate].
  apply Decode_text_inv in Hd; [|assumption].
  destruct (literalInterface data) as [[t [e|]]| |]; simpl; try discriminate.
  intros H. inversion H; subst. assumption.
Qed.

Lemma Token_value_not_fuel dec : Token_value dec <> OutOfFuel.
Proof.
  unfold Token_value. destruct (Decode_text dec); [|discriminate].
  pose proof (literalInterface_not_fuel a) as Hl.
  destruct (literalInterface a) as [[t [e|]]| |]; simpl; try discriminate.
  contradiction.
Qed.

Ltac split_ifs_in H :=
  repeat match type of H with
         | context [if ?b then _ else _] =>
           let E := fresh "E" in destruct b eqn:E; cbv beta iota in H
         end.

Ltac split_ifs :=
  repeat match goal with
         | |- context [if ?b then _ else _] =>
           let E := fresh "E" in destruct b eqn:E; cbv beta iota
         end.

Lemma Token_close_inv dec c tok dec' :
  (scanp dec < length (buf dec))%nat ->
  Token_close dec c = Ret (Ok tok dec') -> advances dec dec'.
Proof.
  unfold Token_close. intros Hs.
  destruct (tokenStack dec); [discriminate|].
  intros H. inversion H; subst. unfold advances; simpl.
  split; [reflexivity | lia].
Qed.

Lemma Token_loop_inv (fuel : nat) :
  forall dec tok dec',
    Token_loop fuel dec = Ret (Ok tok dec') -> advances dec dec'.
Proof.
  induction fuel as [|fuel IH]; intros dec tok dec' H; simpl in H;
    [discriminate|].
  destruct (peek dec) as [c d|e] eqn:Hp; [|discriminate].
  apply peek_inv in Hp. destruct Hp as (Hb & _ & _ & Hs).
  assert (Hf : follows dec d) by (split; [assumption | lia]).
  assert (Hd : (scanp d < length (buf d))%nat) by (rewrite Hb; lia).
  assert (Hstep : forall st stack,
             advances dec (at_ d (S (scanp d)) st stack)).
  { intros st stack. unfold advances; simpl. split; [assumption | lia]. }
  split_ifs_in H; try discriminate;
    try (inversion H; subst; apply Hstep);
    try (apply Token_close_inv in H; [|assumption];
         eapply follows_trans_adv; eassumption).
  - (* ':' *)
    apply IH in H. destruct H as (Hb' & Hs'). simpl in Hb', Hs'.
    split; [congruence | rewrite Hb in Hs'; lia].
  - (* ',' in an array *)
    apply IH in H. destruct H as (Hb' & Hs'). simpl in Hb', Hs'.
    split; [congruence | rewrite Hb in Hs'; lia].
  - (* ',' in an object *)
    apply IH in H. destruct H as (Hb' & Hs'). simpl in Hb', Hs'.
    split; [congruence | rewrite Hb in Hs'; lia].
  - (* an object key *)
    destruct (Token_value (at_ d (scanp d) tokenTopValue (tokenStack d)))
      as [[x d2|e]| |] eqn:Hv; simpl in H; try discriminate.
    inversion H; subst; clear H.
    apply Token_value_inv in Hv; [|unfold wf_dec; simpl; lia].
    destruct Hv as (Hb' & Hs'). simpl in Hb', Hs'.
    unfold advances; simpl. split; [congruence | rewrite Hb in Hs'; lia].
  - (* any other value *)
    apply Token_value_inv in H; [|unfold wf_dec; lia].
    eapply follows_trans_adv; eassumption.
Qed.

Lemma Token_inv dec tok dec' :
  Token dec = Ret (Ok tok dec') -> advances dec dec'.
Proof. apply Token_loop_inv. Qed.

Lemma Token_loop_not_fuel (fuel : nat) :
  forall dec, (length (buf dec) - scanp dec < fuel)%nat ->
              Token_loop fuel dec <> OutOfFuel.
Proof.
  induction fuel as [|fuel IH]; intros dec Hlt; [lia|]. simpl.
  destruct (peek dec) as [c d|e] eqn:Hp; [|discriminate].
  apply peek_inv in Hp. destruct Hp as (Hb & _ & _ & Hs).
  split_ifs; try discriminate;
    try (unfold Token_close; destruct (tokenStack d); discriminate);
    try (apply IH; simpl; rewrite Hb; lia);
    try apply Token_value_not_fuel.
  pose proof (Token_value_not_fuel
                (at_ d (scanp d) tokenTopValue (tokenStack d))) as Hv.
  destruct (Token_value _) as [[x d2|e]| |]; simpl; try discriminate.
  contradiction.
Qed.

Lemma Token_not_fuel dec : Token dec <> OutOfFuel.
Proof. apply Token_loop_not_fuel. lia. Qed.

(** ** The loops of [FindElement] *)

Section Loops.

Variable extension : slice.
Variable name : bytes.

Lemma comma_loop_inv (fuel : nat) :
  forall e e', comma_loop fuel extension e = Ret e' ->
               0 <= e < e' /\ e' <= len extension.
Proof.
  induction fuel as [|fuel IH]; intros e e' H; simpl in H; [discriminate|].
  destruct (index extension e) as [c| |] eqn:Hi; simpl in H;
    try discriminate.
  apply index_inv in Hi.
  destruct (Byte.eqb c comma).
  - inversion H; subst. lia.
  - apply IH in H. lia.
Qed.

Lemma colon_loop_inv (fuel : nat) :
  forall s s', colon_loop fuel extension s = Ret s' ->
               0 <= s < s' /\ s' <= len extension.
Proof.
  induction fuel as [|fuel IH]; intros s s' H; simpl in H; [discriminate|].
  destruct (index extension s) as [c| |] eqn:Hi; simpl in H;
    try discriminate.
  apply index_inv in Hi.
  destruct (Byte.eqb c colon).
  - inversion H; subst. lia.
  - apply IH in H. lia.
Qed.

Lemma back_loop_inv (fuel : nat) :
  forall e e', back_loop fuel extension e = Ret e' -> -1 <= e' <= e.
Proof.
  induction fuel as [|fuel IH]; intros e e' H; simpl in H; [discriminate|].
  set (e1 := if e =? len extension then e - 1 else e) in *.
  assert (He1 : e1 <= e) by (subst e1; destruct (e =? len extension); lia).
  destruct (index extension e1) as [c| |] eqn:Hi; simpl in H;
    try discriminate.
  apply index_inv in Hi.
  destruct (Byte.eqb c sqBracket || Byte.eqb c closingCurlyBracket).
  - inversion H; subst. lia.
  - destruct (Byte.eqb c comma).
    + inversion H; subst. lia.
    + apply IH in H. lia.
Qed.

(** A forward scan started with fuel beyond the distance to the end of
    [extension] reaches a [return] or the failing bounds check first. *)
Lemma comma_loop_not_fuel (fuel : nat) :
  forall e, len extension - e < Z.of_nat fuel -> (0 < fuel)%nat ->
            comma_loop fuel extension e <> OutOfFuel.
Proof.
  induction fuel as [|fuel IH]; intros e Hlt Hpos; [lia|]. simpl.
  pose proof (index_not_fuel extension e) as Hn.
  destruct (index extension e) as [c| |] eqn:Hi; simpl;
    try discriminate; try contradiction.
  apply index_inv in Hi.
  destruct (Byte.eqb c comma); [discriminate|].
  apply IH; lia.
Qed.

Lemma colon_loop_not_fuel (fuel : nat) :
  forall s, len extension - s < Z.of_nat fuel -> (0 < fuel)%nat ->
            colon_loop fuel extension s <> OutOfFuel.
Proof.
  induction fuel as [|fuel IH]; intros s Hlt Hpos; [lia|]. simpl.
  pose proof (index_not_fuel extension s) as Hn.
  destruct (index extension s) as [c| |] eqn:Hi; simpl;
    try discriminate; try contradiction.
  apply index_inv in Hi.
  destruct (Byte.eqb c colon); [discriminate|].
  apply IH; lia.
Qed.

Lemma back_loop_not_fuel (fuel : nat) :
  forall e, (if e =? len extension then e - 1 else e) + 1 < Z.of_nat fuel ->
            (0 < fuel)%nat ->
            back_loop fuel extension e <> OutOfFuel.
Proof.
  induction fuel as [|fuel IH]; intros e Hlt Hpos.
  - lia.
  - simpl.
    set (e1 := if e =? len extension then e - 1 else e) in *.
    pose proof (index_not_fuel extension e1) as Hn.
    destruct (index extension e1) as [c| |] eqn:Hi; simpl;
      try discriminate; try contradiction.
    apply index_inv in Hi.
    destruct (Byte.eqb c sqBracket || Byte.eqb c closingCurlyBracket);
      [discriminate|].
    destruct (Byte.eqb c comma); [discriminate|].
    apply IH; [destruct (e1 - 1 =? len extension); lia | lia].
Qed.

Lemma loop_fuel_pos : (0 < loop_fuel extension)%nat.
Proof. unfold loop_fuel. lia. Qed.

Lemma loop_fuel_len :
  Z.of_nat (loop_fuel extension) = len extension + 1.
Proof. unfold loop_fuel, len. lia. Qed.

(** What the token loop hands to the rest of [FindElement]. *)
Lemma token_loop_bounds (fuel : nat) :
  forall dec s0 found s e,
    buf dec = elems extension ->
    wf_dec dec ->
    0 <= s0 <= InputOffset dec ->
    token_loop fuel extension name dec s0 = Ret (Break found s e) ->
    0 <= s <= len extension /\
    if found then s <= e <= len extension else e = 0.
Proof.
  induction fuel as [|fuel IH]; intros dec s0 found s e Hb Hwf Hs0 H;
    cbn [token_loop] in H; [discriminate|].
  assert (Hlen : Z.of_nat (length (buf dec)) = len extension)
    by (unfold len; rewrite Hb; reflexivity).
  unfold wf_dec, InputOffset in *.
  destruct (Token dec) as [[token d1|err1]| |] eqn:Ht; cbn [bind] in H;
    try discriminate.
  - apply Token_inv in Ht. destruct Ht as (Hb1 & Hs1).
    destruct (token_eq token name).
    + destruct (Decode d1) as [[] d2|err2] eqn:Hd; [|discriminate].
      apply Decode_inv in Hd; [|unfold wf_dec; rewrite Hb1; lia].
      destruct Hd as (Hb2 & Hs2). rewrite Hb1 in *.
      destruct (More d2).
      * destruct (index extension s0) as [c| |] eqn:Hi; cbn [bind] in H;
          try discriminate.
        destruct (comma_loop (loop_fuel extension) extension
                             (Z.of_nat (scanp d2))) as [e2| |] eqn:Hc;
          cbn [bind] in H; try discriminate.
        apply comma_loop_inv in Hc.
        inversion H; subst; clear H.
        destruct (Byte.eqb c comma); lia.
      * inversion H; subst; clear H. lia.
    + apply IH in H; [assumption|congruence|rewrite Hb1; lia|lia].
  - destruct (is_EOF err1); inversion H; subst. lia.
Qed.

Lemma token_loop_return (fuel : nat) :
  forall dec s0 r,
    token_loop fuel extension name dec s0 = Ret (Return r) ->
    exists e, r = (false, -1, -1, Some e).
Proof.
  induction fuel as [|fuel IH]; intros dec s0 r H;
    cbn [token_loop] in H; [discriminate|].
  destruct (Token dec) as [[token d1|err1]| |]; cbn [bind] in H;
    try discriminate.
  - destruct (token_eq token name).
    + destruct (Decode d1) as [[] d2|err2].
      * destruct (More d2); [|discriminate].
        destruct (index extension s0); cbn [bind] in H; try discriminate.
        destruct (comma_loop _ _ _); cbn [bind] in H; discriminate.
      * inversion H; subst. eexists; reflexivity.
    + eapply IH; eassumption.
  - destruct (is_EOF err1); inversion H; subst. eexists; reflexivity.
Qed.

Lemma token_loop_not_fuel (fuel : nat) :
  forall dec s0,
    buf dec = elems extension ->
    (length (buf dec) - scanp dec < fuel)%nat ->
    token_loop fuel extension name dec s0 <> OutOfFuel.
Proof.
  induction fuel as [|fuel IH]; intros dec s0 Hb Hlt; [lia|].
  cbn [token_loop].
  pose proof (Token_not_fuel dec) as Hn.
  destruct (Token dec) as [[token d1|err1]| |] eqn:Ht; cbn [bind];
    try discriminate; try contradiction.
  - apply Token_inv in Ht. destruct Ht as (Hb1 & Hs1).
    destruct (token_eq token name).
    + destruct (Decode d1) as [[] d2|err2]; [|discriminate].
      destruct (More d2); [|discriminate].
      pose proof (index_not_fuel extension s0) as Hi.
      destruct (index extension s0); cbn [bind];
        try discriminate; try contradiction.
      assert (Hc : comma_loop (loop_fuel extension) extension (InputOffset d2)
                   <> OutOfFuel).
      { apply comma_loop_not_fuel; [|apply loop_fuel_pos].
        rewrite loop_fuel_len. unfold InputOffset. lia. }
      destruct (comma_loop _ _ _); cbn [bind]; try discriminate.
      contradiction.
    + apply IH; [congruence | rewrite Hb1; lia].
  - destruct (is_EOF err1); discriminate.
Qed.

End Loops.

(** ** Offsets of a found element *)

Lemma FindElement_bounds (names : list bytes) :
  forall extension found s e err,
    FindElement extension names = Ret (found, s, e, err) ->
    found = true ->
    0 <= s <= e /\ e <= len extension.
Proof.
  induction names as [|name names IH]; intros ext found s e err H Hf;
    cbn [FindElement] in H; [discriminate|].
  destruct (token_loop _ _ _ _ _) as [[r|f0 s0 e0]| |] eqn:Ht;
    cbn [bind] in H; try discriminate.
  - apply token_loop_return in Ht. destruct Ht as (e1 & ->).
    inversion H; subst. discriminate.
  - apply token_loop_bounds in Ht;
      [|reflexivity|unfold wf_dec; simpl; lia|unfold InputOffset; simpl; lia].
    destruct f0.
    + destruct names as [|name' names].
      * inversion H; subst. lia.
      * destruct (colon_loop _ _ _) as [s1| |] eqn:Hc; cbn [bind] in H;
          try discriminate.
        destruct (back_loop _ _ _) as [e1| |] eqn:Hk; cbn [bind] in H;
          try discriminate.
        destruct (subslice ext s1 e1) as [w| |] eqn:Hw; cbn [bind] in H;
          try discriminate.
        destruct (FindElement w (name' :: names))
          as [[[[f2 s2] e2] err2]| |] eqn:Hr; cbn [bind] in H;
          try discriminate.
        inversion H; subst; clear H.
        apply IH in Hr; [|reflexivity].
        rewrite (subslice_len _ _ _ _ Hw) in Hr.
        apply colon_loop_inv in Hc. apply back_loop_inv in Hk. lia.
    + inversion H; subst. discriminate.
Qed.

(** ** The fuel is enough *)

Lemma FindElement_not_fuel (names : list bytes) :
  forall extension, FindElement extension names <> OutOfFuel.
Proof.
  induction names as [|name names IH]; intros ext; cbn [FindElement];
    [discriminate|].
  pose proof (token_loop_not_fuel ext name (loop_fuel ext)
                (NewDecoder (elems ext)) 0 eq_refl) as Hn.
  destruct (token_loop _ _ _ _ _) as [[r|f0 s0 e0]| |] eqn:Ht;
    cbn [bind]; try discriminate.
  - apply token_loop_bounds in Ht;
      [|reflexivity|unfold wf_dec; simpl; lia|unfold InputOffset; simpl; lia].
    destruct f0; [|discriminate].
    destruct names as [|name' names]; [discriminate|].
    assert (Hc : colon_loop (loop_fuel ext) ext s0 <> OutOfFuel).
    { apply colon_loop_not_fuel; [|apply loop_fuel_pos].
      rewrite loop_fuel_len. lia. }
    destruct (colon_loop _ _ _) as [s1| |]; cbn [bind];
      try discriminate; try contradiction.
    assert (Hk : back_loop (loop_fuel ext) ext e0 <> OutOfFuel).
    { apply back_loop_not_fuel; [|apply loop_fuel_pos].
      rewrite loop_fuel_len. destruct (e0 =? len ext) eqn:E; [lia|].
      apply Z.eqb_neq in E. lia. }
    destruct (back_loop _ _ _) as [e1| |]; cbn [bind];
      try discriminate; try contradiction.
    unfold subslice.
    destruct ((0 <=? s1) && (s1 <=? e1) && (e1 <=? cap ext)); cbn [bind];
      [|discriminate].
    specialize (IH (mkSlice
      (firstn (Z.to_nat (e1 - s1)) (skipn (Z.to_nat s1) (backing ext)))
      (skipn (Z.to_nat e1) (backing ext)))).
    destruct (FindElement _ (name' :: names)) as [[[[f2 s2] e2] err2]| |];
      cbn [bind]; try discriminate.
    contradiction.
  - exfalso. apply Hn; [|reflexivity]. simpl. unfold loop_fuel. lia.
Qed.

Lemma DropElement_not_fuel extension names :
  DropElement extension names <> OutOfFuel.
Proof.
  unfold DropElement.
  pose proof (FindElement_not_fuel names extension) as Hn.
  destruct (FindElement extension names) as [[[[f s] e] err]| |];
    cbn [bind]; try discriminate; try contradiction.
  destruct err; [discriminate|]. destruct f; [|discriminate].
  unfold slice_to, subslice, slice_from.
  destruct ((0 <=? 0) && (0 <=? s) && (s <=? cap extension)); cbn [bind];
    [|discriminate].
  destruct ((0 <=? e) && (e <=? len extension)); cbn [bind]; [|discriminate].
  destruct (append_shared _ _). discriminate.
Qed.

(** ** What [DropElement] does with a found element *)

Lemma DropElement_found extension names s e :
  FindElement extension names = Ret (true, s, e, None) ->
  DropElement extension names =
  Ret (mkDropped
         (mkSlice (spliced extension s e)
                  (skipn (length (spliced extension s e)) (backing extension)))
         None
         (spliced extension s e
          ++ skipn (length (spliced extension s e)) (backing extension))).
Proof.
  intros H. pose proof (FindElement_bounds _ _ _ _ _ _ H eq_refl) as Hb.
  pose proof (len_le_cap extension) as Hcap.
  unfold DropElement. rewrite H. cbn [bind].
  unfold slice_to, subslice, slice_from.
  replace ((0 <=? 0) && (0 <=? s) && (s <=? cap extension)) with true
    by (symmetry; rewrite !andb_true_iff, !Z.leb_le; lia).
  replace ((0 <=? e) && (e <=? len extension)) with true
    by (symmetry; rewrite !andb_true_iff, !Z.leb_le; lia).
  cbn [bind elems spare].
  assert (Hd : firstn (Z.to_nat (s - 0)) (skipn (Z.to_nat 0) (backing extension))
               = upto (elems extension) s).
  { rewrite Z.sub_0_r. simpl. unfold backing, upto.
    rewrite firstn_app.
    replace (Z.to_nat s - length (elems extension))%nat with 0%nat
      by (unfold len in Hb; lia).
    simpl. apply app_nil_r. }
  unfold append_shared. cbn [elems spare].
  rewrite Hd.
  assert (Hbk : backing (mkSlice (upto (elems extension) s)
                                 (skipn (Z.to_nat s) (backing extension)))
                = backing extension).
  { unfold upto, backing at 1. cbn [elems spare]. unfold backing.
    rewrite skipn_app.
    replace (Z.to_nat s - length (elems extension))%nat with 0%nat
      by (unfold len in Hb; lia).
    simpl. rewrite app_assoc, firstn_skipn. reflexivity. }
  rewrite Hbk.
  fold (from (elems extension) e).
  assert (Hn : (length (upto (elems extension) s) + length (from (elems extension) e)
                <= length (backing extension))%nat).
  { unfold upto, from. rewrite length_firstn, length_skipn.
    unfold cap, len in *. lia. }
  apply Nat.leb_le in Hn. rewrite Hn.
  unfold spliced. rewrite length_app, <- app_assoc. reflexivity.
Qed.

(** ** [FindElement] reads only the visible elements *)

Lemma index_elems s1 s2 i : elems s1 = elems s2 -> index s1 i = index s2 i.
Proof. unfold index, len. intros ->. reflexivity. Qed.

Lemma comma_loop_elems (fuel : nat) s1 s2 :
  elems s1 = elems s2 ->
  forall e, comma_loop fuel s1 e = comma_loop fuel s2 e.
Proof.
  intros He. induction fuel as [|fuel IH]; intros e; simpl; [reflexivity|].
  rewrite (index_elems s1 s2 e He).
  destruct (index s2 e); simpl; try reflexivity.
  destruct (Byte.eqb a comma); [reflexivity | apply IH].
Qed.

Lemma colon_loop_elems (fuel : nat) s1 s2 :
  elems s1 = elems s2 ->
  forall s, colon_loop fuel s1 s = colon_loop fuel s2 s.
Proof.
  intros He. induction fuel as [|fuel IH]; intros e; simpl; [reflexivity|].
  rewrite (index_elems s1 s2 e He).
  destruct (index s2 e); simpl; try reflexivity.
  destruct (Byte.eqb a colon); [reflexivity | apply IH].
Qed.

Lemma back_loop_elems (fuel : nat) s1 s2 :
  elems s1 = elems s2 ->
  forall e, back_loop fuel s1 e = back_loop fuel s2 e.
Proof.
  intros He. induction fuel as [|fuel IH]; intros e; simpl; [reflexivity|].
  assert (Hl : len s1 = len s2) by (unfold len; rewrite He; reflexivity).
  rewrite Hl.
  rewrite (index_elems s1 s2 _ He).
  destruct (index s2 _); simpl; try reflexivity.
  destruct (Byte.eqb a sqBracket || Byte.eqb a closingCurlyBracket);
    [reflexivity|].
  destruct (Byte.eqb a comma); [reflexivity | apply IH].
Qed.

Lemma token_loop_elems (fuel : nat) s1 s2 name :
  elems s1 = elems s2 ->
  forall dec s0,
    token_loop fuel s1 name dec s0 = token_loop fuel s2 name dec s0.
Proof.
  intros He. induction fuel as [|fuel IH]; intros dec s0;
    cbn [token_loop]; [reflexivity|].
  destruct (Token dec) as [[token d1|err1]| |]; cbn [bind]; try reflexivity.
  destruct (token_eq token name); [|apply IH].
  destruct (Decode d1) as [[] d2|err2]; [|reflexivity].
  destruct (More d2); [|reflexivity].
  rewrite (index_elems s1 s2 _ He).
  unfold loop_fuel. rewrite He.
  rewrite (comma_loop_elems _ s1 s2 He). reflexivity.
Qed.

Lemma subslice_elems s1 s2 lo hi :
  elems s1 = elems s2 -> hi <= len s1 ->
  match subslice s1 lo hi, subslice s2 lo hi with
  | Ret w1, Ret w2 => elems w1 = elems w2
  | Panic a, Panic b => a = b
  | _, _ => False
  end.
Proof.
  intros He Hhi.
  assert (Hl : len s1 = len s2) by (unfold len; rewrite He; reflexivity).
  pose proof (len_le_cap s1). pose proof (len_le_cap s2).
  unfold subslice.
  replace (hi <=? cap s1) with true by (symmetry; apply Z.leb_le; lia).
  replace (hi <=? cap s2) with true by (symmetry; apply Z.leb_le; lia).
  rewrite !andb_true_r.
  destruct ((0 <=? lo) && (lo <=? hi)) eqn:E; [|reflexivity].
  apply andb_true_iff in E. rewrite !Z.leb_le in E.
  cbn [elems]. unfold backing.
  assert (Hcut : forall (a b : bytes),
             Z.of_nat (length a) >= hi ->
             firstn (Z.to_nat (hi - lo)) (skipn (Z.to_nat lo) (a ++ b))
             = firstn (Z.to_nat (hi - lo)) (skipn (Z.to_nat lo) a)).
  { intros a b Ha. rewrite skipn_app, firstn_app, length_skipn.
    replace (Z.to_nat (hi - lo) - (length a - Z.to_nat lo))%nat with 0%nat
      by lia.
    simpl. apply app_nil_r. }
  rewrite !Hcut by (unfold len in *; lia).
  rewrite He. reflexivity.
Qed.

Lemma FindElement_elems (names : list bytes) :
  forall s1 s2, elems s1 = elems s2 ->
                FindElement s1 names = FindElement s2 names.
Proof.
  induction names as [|name names IH]; intros s1 s2 He; cbn [FindElement];
    [reflexivity|].
  assert (Hl : len s1 = len s2) by (unfold len; rewrite He; reflexivity).
  rewrite (token_loop_elems _ s1 s2 name He).
  replace (loop_fuel s1) with (loop_fuel s2)
    by (unfold loop_fuel; rewrite He; reflexivity).
  rewrite He.
  destruct (token_loop _ _ _ _ _) as [[r|f0 s0 e0]| |] eqn:Ht;
    cbn [bind]; try reflexivity.
  apply token_loop_bounds in Ht;
    [|reflexivity|unfold wf_dec; simpl; lia|unfold InputOffset; simpl; lia].
  destruct f0; [|reflexivity].
  destruct names as [|name' names]; [reflexivity|].
  rewrite (colon_loop_elems _ s1 s2 He).
  destruct (colon_loop _ _ _) as [c1| |]; cbn [bind]; try reflexivity.
  rewrite (back_loop_elems _ s1 s2 He).
  destruct (back_loop _ _ _) as [e1| |] eqn:Hk; cbn [bind]; try reflexivity.
  apply back_loop_inv in Hk.
  pose proof (subslice_elems s1 s2 c1 e1 He) as Hw.
  destruct (subslice s1 c1 e1) as [w1| |], (subslice s2 c1 e1) as [w2| |];
    try (exfalso; apply Hw; lia); cbn [bind].
  - rewrite (IH w1 w2); [reflexivity | apply Hw; lia].
  - f_equal. apply Hw. lia.
Qed.

(** ** The token loop against the token stream *)

Section Stream.

Variable extension : slice.
Variable name : bytes.

Lemma token_loop_stream_end (fuel : nat) :
  forall dec s0 toks e,
    token_stream fuel dec = Ret (toks, e) ->
    no_match name toks ->
    token_loop fuel extension name dec s0 =
    Ret (if is_EOF e then Break false (last_offset s0 toks) 0
         else Return (false, -1, -1, Some e)).
Proof.
  induction fuel as [|fuel IH]; intros dec s0 toks e H Hn;
    cbn [token_stream token_loop] in *; [discriminate|].
  destruct (Token dec) as [[token d1|err1]| |]; cbn [bind] in *;
    try discriminate.
  - destruct (token_stream fuel d1) as [[rest e']| |] eqn:Hs;
      cbn [bind] in H; try discriminate.
    inversion H; subst; clear H. simpl in *.
    inversion Hn; subst. simpl in *.
    match goal with Hm : token_eq token name = false |- _ => rewrite Hm end.
    apply IH; assumption.
  - inversion H; subst; clear H. simpl.
    destruct (is_EOF e); reflexivity.
Qed.

Lemma token_loop_stream_match (pre : list (jsonToken * Decoder)) :
  forall fuel dec s0 tok d post e' e,
    token_stream fuel dec = Ret (pre ++ (tok, d) :: post, e') ->
    no_match name pre ->
    token_eq tok name = true ->
    Decode d = Err e ->
    token_loop fuel extension name dec s0 = Ret (Return (false, -1, -1, Some e)).
Proof.
  induction pre as [|p pre IH]; intros fuel dec s0 tok d post e' e H Hn Hm Hd;
    (destruct fuel as [|fuel]; cbn [token_stream token_loop] in *;
     [discriminate|]);
    (destruct (Token dec) as [[token d1|err1]| |]; cbn [bind] in *;
     try discriminate);
    (destruct (token_stream fuel d1) as [[rest e'']| |] eqn:Hs;
     cbn [bind] in H; try discriminate);
    inversion H; subst; clear H; simpl in *.
  - rewrite Hm, Hd. reflexivity.
  - inversion Hn; subst. simpl in *.
    match goal with Hx : token_eq _ name = false |- _ => rewrite Hx end.
    eapply IH; eassumption.
Qed.

End Stream.

(** ** Stating results on literals *)

Lemma drops_to_intro input names s e output :
  FindElement (slice_of input) names = Ret (true, s, e, None) ->
  upto input s ++ from input e = output ->
  drops_to input names output.
Proof.
  intros H Ho room.
  rewrite (FindElement_elems names (slice_of input) (mkSlice input room)
             eq_refl) in H.
  apply DropElement_found in H.
  eexists. split; [exact H|]. split; [exact Ho | reflexivity].
Qed.


Lemma DropElement_error extension names found s e err :
  FindElement extension names = Ret (found, s, e, Some err) ->
  DropElement extension names =
  Ret (mkDropped nil_slice (Some err) (backing extension)).
Proof. intros H. unfold DropElement. rewrite H. reflexivity. Qed.


(** * The claims *)

(** C1: if [FindElement] reports an element found, with the range
    [startIndex, endIndex) and a nil error (which only happens on a
    non-empty path), then [DropElement] on the same arguments returns
    exactly [extension[:startIndex] ++ extension[endIndex:]], every byte
    outside the range in its original order, with a nil error. *)
Theorem DropElement_removes_found_range
        (extension : slice) (elementNames : list bytes)
        (startIndex endIndex : Z) :
  FindElement extension elementNames = Ret (true, startIndex, endIndex, None) ->
  exists d,
    DropElement extension elementNames = Ret d /\
    elems (result_slice d)
    = upto (elems extension) startIndex ++ from (elems extension) endIndex /\
    result_err d = None.
Proof.
  intros H. apply DropElement_found in H.
  eexists. split; [exact H|]. split; reflexivity.
Qed.

Lemma DropElement_removes_found_range_witness :
  exists d,
    DropElement (slice_of (js "{'a':1,'b':2}")) [str "b"] = Ret d /\
    elems (result_slice d)
    = upto (js "{'a':1,'b':2}") 6 ++ from (js "{'a':1,'b':2}") 12 /\
    result_err d = None.
Proof.
  apply (DropElement_removes_found_range
           (slice_of (js "{'a':1,'b':2}")) [str "b"] 6 12).
  vm_compute. reflexivity.
Defined.

(** C7: whenever [FindElement] reports an element found with a nil error,
    the offsets it returns satisfy
    [0 <= startIndex <= endIndex <= len(extension)]; this covers paths of
    several segments, where the offsets found in the narrowed window are
    shifted by the window's start. *)
Theorem FindElement_range_within_buffer
        (extension : slice) (elementNames : list bytes)
        (startIndex endIndex : Z) :
  FindElement extension elementNames = Ret (true, startIndex, endIndex, None) ->
  0 <= startIndex /\ startIndex <= endIndex /\ endIndex <= len extension.
Proof.
  intros H. apply FindElement_bounds in H; [lia | reflexivity].
Qed.

Lemma FindElement_range_within_buffer_witness :
  0 <= 11 /\ 11 <= 16 /\
  16 <= len (slice_of (js "{'x':{'y':{'z':5}},'w':1}")).
Proof.
  apply (FindElement_range_within_buffer
           (slice_of (js "{'x':{'y':{'z':5}},'w':1}"))
           [str "x"; str "y"; str "z"] 11 16).
  vm_compute. reflexivity.
Defined.

(** C9: with no path segment at all, the first statement of [FindElement]
    indexes an empty slice of names and panics, on every buffer; so does
    [DropElement], which starts by calling it.  Neither returns a not-found
    result or an error. *)
Theorem empty_path_panics (extension : slice) :
  FindElement extension [] = Panic "index out of range" /\
  DropElement extension [] = Panic "index out of range".
Proof. split; reflexivity. Qed.

(** C3: on [{"a":1,"b":2,"c":3}] dropping [b] gives [{"a":1,"c":3}]; on
    [{"a":1,"b":2}] dropping [a] gives [{"b":2}] and dropping [b] gives
    [{"a":1}]; on [{"a":1}] dropping [a] gives [{}]; each time with a nil
    error. *)
Theorem DropElement_single_level_examples :
  drops_to (js "{'a':1,'b':2,'c':3}") [str "b"] (js "{'a':1,'c':3}") /\
  drops_to (js "{'a':1,'b':2}") [str "a"] (js "{'b':2}") /\
  drops_to (js "{'a':1,'b':2}") [str "b"] (js "{'a':1}") /\
  drops_to (js "{'a':1}") [str "a"] (js "{}").
Proof.
  repeat split.
  - apply (drops_to_intro _ _ 7 13); vm_compute; reflexivity.
  - apply (drops_to_intro _ _ 1 7); vm_compute; reflexivity.
  - apply (drops_to_intro _ _ 6 12); vm_compute; reflexivity.
  - apply (drops_to_intro _ _ 1 6); vm_compute; reflexivity.
Qed.

(** C4: on [{"x":{"y":{"z":5}},"w":1}] with the path [x, y, z],
    [DropElement] returns [{"x":{"y":{}},"w":1}] with a nil error: the
    innermost member is removed and every sibling is kept. *)
Theorem DropElement_nested_example :
  drops_to (js "{'x':{'y':{'z':5}},'w':1}") [str "x"; str "y"; str "z"]
           (js "{'x':{'y':{}},'w':1}").
Proof.
  apply (drops_to_intro _ _ 11 16); vm_compute; reflexivity.
Qed.



(** C5, as the code has it: an error of the tokenizer other than [io.EOF],
    or any error of the value decoder, met while scanning for the first
    path segment is what [FindElement] returns, with found=false;
    [DropElement] returns a nil slice and that error and leaves the backing
    array as it was.  ([io.EOF] from the tokenizer is a successful end of the
    scan: an object cut off between two tokens is not reported.) *)
Theorem decoder_errors_are_returned
        (extension : slice) (name : bytes) (names : list bytes) (e : error) :
  reports (elems extension) name e ->
  FindElement extension (name :: names) = Ret (false, -1, -1, Some e) /\
  DropElement extension (name :: names)
  = Ret (mkDropped nil_slice (Some e) (backing extension)).
Proof.
  intros Hr.
  assert (H : FindElement extension (name :: names)
              = Ret (false, -1, -1, Some e)).
  { cbn [FindElement]. unfold reports, tokens in Hr.
    fold (loop_fuel extension) in Hr.
    destruct Hr as [(toks & Ht & He & Hn)
                   |(pre & tok & d & post & e' & Ht & Hn & Hm & Hd)].
    - rewrite (token_loop_stream_end extension name _ _ 0 toks e Ht Hn).
      rewrite He. reflexivity.
    - rewrite (token_loop_stream_match extension name pre _ _ 0 _ _ _ _ e
                 Ht Hn Hm Hd).
      reflexivity. }
  split; [exact H | eapply DropElement_error; exact H].
Qed.

Lemma decoder_errors_are_returned_witness :
  (* the tokenizer fails on the cut-off literal before any token is [c] *)
  (FindElement (slice_of (js "{'a':1,'b':tr")) [str "c"]
   = Ret (false, -1, -1, Some io_ErrUnexpectedEOF) /\
   DropElement (slice_of (js "{'a':1,'b':tr")) [str "c"]
   = Ret (mkDropped nil_slice (Some io_ErrUnexpectedEOF)
                    (backing (slice_of (js "{'a':1,'b':tr"))))) /\
  (* the value of [a] does not fit a float64 *)
  (FindElement (slice_of (js "{'a':[1e999]}")) [str "a"]
   = Ret (false, -1, -1, Some (UnmarshalTypeError (str "number 1e999"))) /\
   DropElement (slice_of (js "{'a':[1e999]}")) [str "a"]
   = Ret (mkDropped nil_slice
                    (Some (UnmarshalTypeError (str "number 1e999")))
                    (backing (slice_of (js "{'a':[1e999]}"))))).
Proof.
  split.
  - apply (decoder_errors_are_returned
             (slice_of (js "{'a':1,'b':tr")) (str "c") []
             io_ErrUnexpectedEOF).
    left. eexists. split; [vm_compute; reflexivity|].
    split; [reflexivity | repeat constructor].
  - apply (decoder_errors_are_returned
             (slice_of (js "{'a':[1e999]}")) (str "a") []
             (UnmarshalTypeError (str "number 1e999"))).
    right.
    exists [(Delim x7b,
             mkDecoder (js "{'a':[1e999]}") 1 tokenObjectStart
                       [tokenTopValue])].
    do 4 eexists. split; [vm_compute; reflexivity|].
    split; [repeat constructor|].
    split; vm_compute; reflexivity.
Defined.

(** C5 fails as stated: [{"a":1] is a truncated object, which [checkValid]
    rejects, yet [FindElement] for an absent name returns found=false with a
    nil error, and for the name [a] it returns found=true and [DropElement]
    shortens the buffer. *)
Lemma truncated_object_is_not_reported :
  checkValid (js "{'a':1")
  = Some (SyntaxErrorMsg "unexpected end of JSON input") /\
  FindElement (slice_of (js "{'a':1")) [str "b"] = Ret (false, 6, 0, None) /\
  FindElement (slice_of (js "{'a':1")) [str "a"] = Ret (true, 1, 6, None) /\
  DropElement_bytes (js "{'a':1") [str "a"] = Ret (js "{", None).
Proof. repeat split; vm_compute; reflexivity. Qed.




(** C2 on [{"a":1 ,"b":2,"c":3}], a buffer [json.Valid] accepts and the
    tokenizer reads to its end: the blank before the first comma hides it
    from the test at [startIndex], so the range found for [b] takes both
    commas and what [DropElement] returns, [{"a":1"c":3}], is no longer
    valid JSON. *)
Lemma blank_before_comma_breaks_the_object :
  Valid (js "{'a':1 ,'b':2,'c':3}") = true /\
  (exists toks, tokens (js "{'a':1 ,'b':2,'c':3}") = Ret (toks, io_EOF)) /\
  FindElement (slice_of (js "{'a':1 ,'b':2,'c':3}")) [str "b"]
  = Ret (true, 6, 14, None) /\
  DropElement_bytes (js "{'a':1 ,'b':2,'c':3}") [str "b"]
  = Ret (js "{'a':1'c':3}", None) /\
  Valid (js "{'a':1'c':3}") = false /\
  (exists toks c,
      tokens (js "{'a':1'c':3}")
      = Ret (toks, SyntaxError c " after object key:value pair")).
Proof.
  repeat split; try (vm_compute; reflexivity);
    try (eexists; vm_compute; reflexivity).
  do 2 eexists. vm_compute. reflexivity.
Qed.

(** C10 on two buffers [json.Valid] accepts.  In [{"x":{"y":5},"w":1}] with
    the path [x, y, z] the window for [x] is [{"y":5]; there [y] is found
    with its value ending the window, and the walk back from the end meets
    no bracket or comma and reads [extension[-1]].  In [{"x":5 }] with the
    path [x, y] the walk back starts on the blank after [5] and runs off the
    front the same way. *)
Lemma narrowing_indexes_out_of_range :
  Valid (js "{'x':{'y':5},'w':1}") = true /\
  FindElement (slice_of (js "{'x':{'y':5},'w':1}")) [str "x"; str "y"; str "z"]
  = Panic "index out of range" /\
  back_loop 7 (slice_of (js "{'y':5")) 6 = Panic "index out of range" /\
  Valid (js "{'x':5 }") = true /\
  FindElement (slice_of (js "{'x':5 }")) [str "x"; str "y"]
  = Panic "index out of range".
Proof. repeat split; vm_compute; reflexivity. Qed.

(** * Further properties *)

(** ** Occurrences of a substring *)

Lemma HasPrefix_app (p r : bytes) : strings.HasPrefix (p ++ r) p = true.
Proof.
  induction p as [|c p IH]; simpl; [reflexivity|].
  rewrite (Byte.byte_dec_lb (eq_refl c)). exact IH.
Qed.

Lemma HasPrefix_inv (p : bytes) :
  forall s, strings.HasPrefix s p = true -> s = p ++ skipn (length p) s.
Proof.
  induction p as [|c p IH]; intros s H; [reflexivity|].
  destruct s as [|d s]; simpl in H; [discriminate|].
  apply andb_true_iff in H. destruct H as (Hc & Hp).
  apply Byte.byte_dec_bl in Hc. subst d.
  simpl. f_equal. apply IH. exact Hp.
Qed.

Lemma HasPrefix_length (s p : bytes) :
  strings.HasPrefix s p = true -> (length p <= length s)%nat.
Proof.
  intros H. apply HasPrefix_inv in H.
  rewrite H. rewrite length_app. lia.
Qed.

Lemma occurs_at_bound sub s n :
  occurs_at sub s n -> (n + length sub <= length s)%nat \/ sub = [].
Proof.
  unfold occurs_at. intros H. apply HasPrefix_length in H.
  rewrite length_skipn in H.
  destruct sub as [|c sub]; [right; reflexivity|left]. simpl in *. lia.
Qed.

Lemma occurs_at_occurs sub s n : occurs_at sub s n -> occurs sub s.
Proof.
  unfold occurs_at. intros H. apply HasPrefix_inv in H.
  exists (firstn n s), (skipn (length sub) (skipn n s)).
  rewrite <- H. symmetry. apply firstn_skipn.
Qed.

Lemma occurs_at_nth sub s n k c :
  occurs_at sub s n -> nth_error sub k = Some c ->
  nth_error s (n + k) = Some c.
Proof.
  unfold occurs_at. intros H Hk. apply HasPrefix_inv in H.
  rewrite <- nth_error_skipn, H.
  rewrite nth_error_app1; [exact Hk|].
  apply nth_error_Some. rewrite Hk. discriminate.
Qed.

Lemma find_Some (p : bytes) :
  forall s n, strings.find s p = Some n ->
              occurs_at p s n /\ (n <= length s)%nat /\
              forall m, (m < n)%nat -> ~ occurs_at p s m.
Proof.
  unfold occurs_at.
  induction s as [|a s IH]; intros n H; simpl in H.
  - destruct (strings.HasPrefix [] p) eqn:E; inversion H; subst.
    repeat split; [exact E | simpl; lia | intros m Hm; lia].
  - destruct (strings.HasPrefix (a :: s) p) eqn:E.
    + inversion H; subst.
      repeat split; [exact E | simpl; lia | intros m Hm; lia].
    + destruct (strings.find s p) as [n'|] eqn:F; simpl in H; inversion H;
        subst.
      destruct (IH n' eq_refl) as (Ho & Hn & Hm).
      repeat split; [exact Ho | simpl; lia |].
      intros [|m] Hlt; simpl.
      * rewrite E. discriminate.
      * apply Hm. lia.
Qed.

Lemma find_None (p : bytes) :
  forall s, strings.find s p = None -> forall m, ~ occurs_at p s m.
Proof.
  unfold occurs_at.
  induction s as [|a s IH]; intros H m; simpl in H.
  - destruct (strings.HasPrefix [] p) eqn:E; [discriminate|].
    destruct m; simpl; rewrite E; discriminate.
  - destruct (strings.HasPrefix (a :: s) p) eqn:E; [discriminate|].
    destruct (strings.find s p) eqn:F; [discriminate|].
    destruct m as [|m]; simpl; [rewrite E; discriminate | apply IH, eq_refl].
Qed.

Lemma find_last_None (p : bytes) :
  forall s, strings.find_last s p = None -> forall m, ~ occurs_at p s m.
Proof.
  unfold occurs_at.
  induction s as [|a s IH]; intros H m; simpl in H.
  - destruct (strings.HasPrefix [] p) eqn:E; [discriminate|].
    destruct m; simpl; rewrite E; discriminate.
  - destruct (strings.find_last s p) eqn:F; [discriminate|].
    destruct (strings.HasPrefix (a :: s) p) eqn:E; [discriminate|].
    destruct m as [|m]; simpl; [rewrite E; discriminate | apply IH, eq_refl].
Qed.

Lemma find_last_Some (p : bytes) :
  forall s n, strings.find_last s p = Some n ->
              occurs_at p s n /\ (n <= length s)%nat /\
              forall m, (n < m)%nat -> (m <= length s)%nat -> ~ occurs_at p s m.
Proof.
  induction s as [|a s IH]; intros n H; simpl in H.
  - destruct (strings.HasPrefix [] p) eqn:E; inversion H; subst.
    repeat split; [exact E | simpl; lia | simpl; intros m H1 H2; lia].
  - destruct (strings.find_last s p) as [n'|] eqn:F.
    + inversion H; subst.
      destruct (IH n' eq_refl) as (Ho & Hn & Hm).
      repeat split; [exact Ho | simpl; lia |].
      intros [|m] H1 H2; [lia|]. simpl in H2.
      unfold occurs_at; simpl. apply Hm; lia.
    + destruct (strings.HasPrefix (a :: s) p) eqn:E; inversion H; subst.
      repeat split; [exact E | simpl; lia |].
      intros [|m] H1 H2; [lia|].
      unfold occurs_at; simpl. apply (find_last_None p s F).
Qed.

Lemma find_last_app (p a b : bytes) (n : nat) :
  strings.find_last b p = Some n ->
  strings.find_last (a ++ b) p = Some (length a + n)%nat.
Proof.
  intros H. induction a as [|c a IH]; simpl; [exact H|].
  rewrite IH. reflexivity.
Qed.

Lemma position_Some r (n : nat) :
  strings.position r = Z.of_nat n -> r = Some n.
Proof.
  destruct r as [m|]; simpl; intros H; [f_equal; lia | lia].
Qed.

Lemma position_None r : strings.position r = -1 -> r = None.
Proof. destruct r as [m|]; simpl; intros H; [lia | reflexivity]. Qed.

(** The separator cannot overlap the head of the marker. *)
Lemma separator_clear_of_marker msg p e :
  occurs_at op_separator msg p -> occurs_at end_marker msg e ->
  (p <= e + 1)%nat -> (p + 2 <= e)%nat.
Proof.
  intros Hp He Hle.
  pose proof (occurs_at_nth _ _ _ 0%nat _ Hp eq_refl) as P0.
  pose proof (occurs_at_nth _ _ _ 1%nat _ Hp eq_refl) as P1.
  pose proof (occurs_at_nth _ _ _ 0%nat _ He eq_refl) as E0.
  pose proof (occurs_at_nth _ _ _ 1%nat _ He eq_refl) as E1.
  rewrite Nat.add_0_r in P0, E0.
  destruct (Nat.eq_dec p (e + 1)) as [->|N1];
    [rewrite P0 in E1; discriminate|].
  destruct (Nat.eq_dec p e) as [->|N2]; [rewrite P0 in E0; discriminate|].
  destruct (Nat.eq_dec (p + 1) e) as [<-|N3];
    [rewrite P1 in E0; discriminate|].
  lia.
Qed.

(** ** Slicing a string inside its bounds *)

Lemma substring_ok (s : bytes) (lo hi : nat) :
  (lo <= hi)%nat -> (hi <= length s)%nat ->
  substring s (Z.of_nat lo) (Z.of_nat hi) = Ret (cut s lo hi).
Proof.
  intros H1 H2. unfold substring, cut.
  replace ((0 <=? Z.of_nat lo) && (Z.of_nat lo <=? Z.of_nat hi)
           && (Z.of_nat hi <=? Z.of_nat (length s))) with true
    by (symmetry; rewrite !andb_true_iff, !Z.leb_le; lia).
  rewrite Nat2Z.id. replace (Z.to_nat (Z.of_nat hi - Z.of_nat lo))
    with (hi - lo)%nat by lia.
  reflexivity.
Qed.

Lemma substring_from_ok (s : bytes) (lo : nat) :
  (lo <= length s)%nat -> substring_from s (Z.of_nat lo) = Ret (skipn lo s).
Proof.
  intros H. unfold substring_from. rewrite substring_ok by lia.
  unfold cut. rewrite firstn_all2; [reflexivity|].
  rewrite length_skipn. lia.
Qed.

(** ** The operation loop of [tryExtractErrorMessage] *)

Lemma marker_inside msg e :
  occurs_at end_marker msg e -> (e + 18 <= length msg)%nat.
Proof.
  intros H. destruct (occurs_at_bound _ _ _ H) as [Hb|Hb];
    [exact Hb | discriminate Hb].
Qed.

Lemma separator_inside msg k :
  occurs_at op_separator msg k -> (k + 2 <= length msg)%nat.
Proof.
  intros H. destruct (occurs_at_bound _ _ _ H) as [Hb|Hb];
    [exact Hb | discriminate Hb].
Qed.

(** From a separator in front of the marker the loop returns, at a
    separator that is still in front of the marker. *)
Lemma operation_loop_inv (fuel : nat) :
  forall msg e stack k,
    occurs_at end_marker msg e ->
    occurs_at op_separator msg k ->
    (k + 2 <= e)%nat ->
    (length msg - k < fuel)%nat ->
    exists more k',
      operation_loop fuel msg (Z.of_nat e) stack (Z.of_nat k)
      = Ret (stack ++ more, Z.of_nat k') /\
      occurs_at op_separator msg k' /\ (k <= k')%nat /\ (k' + 2 <= e)%nat.
Proof.
  induction fuel as [|fuel IH]; intros msg e stack k He Hk Hke Hf; [lia|].
  pose proof (marker_inside _ _ He) as Hlen.
  assert (Hstop : exists more k',
             Ret (stack, Z.of_nat k) = Ret (stack ++ more, Z.of_nat k') /\
             occurs_at op_separator msg k' /\ (k <= k')%nat /\
             (k' + 2 <= e)%nat).
  { exists [], k. rewrite app_nil_r. repeat split; [exact Hk | lia | lia]. }
  cbn [operation_loop].
  replace (Z.of_nat k + 2) with (Z.of_nat (k + 2)) by lia.
  rewrite substring_from_ok by lia. cbn [bind].
  unfold strings.Index.
  destruct (strings.find (skipn (k + 2) msg) op_separator) as [n|] eqn:F;
    cbn [strings.position]; [|exact Hstop].
  destruct (Z.of_nat n =? -1) eqn:E1; [apply Z.eqb_eq in E1; lia|].
  destruct (Z.of_nat e <=? Z.of_nat k + Z.of_nat n) eqn:E2; [exact Hstop|].
  apply Z.leb_gt in E2.
  apply find_Some in F. destruct F as (Fo & Fn & _).
  unfold occurs_at in Fo. rewrite skipn_skipn in Fo.
  rewrite length_skipn in Fn.
  assert (Hp : (n + (k + 2) + 2 <= e)%nat)
    by (apply (separator_clear_of_marker msg); [exact Fo | exact He | lia]).
  replace (Z.of_nat (k + 2) + Z.of_nat n) with (Z.of_nat (k + 2 + n)) by lia.
  rewrite substring_ok by lia. cbn [bind].
  destruct (strings.Contains _ _); [exact Hstop|].
  replace (Z.of_nat k + (Z.of_nat n + 2)) with (Z.of_nat (n + (k + 2)))
    by lia.
  destruct (IH msg e (stack ++ [cut msg (k + 2) (k + 2 + n)]) (n + (k + 2))%nat
               He Fo Hp ltac:(lia)) as (more & k' & Hr & Ho & Hle & Hke').
  exists (cut msg (k + 2) (k + 2 + n) :: more), k'.
  rewrite Hr, <- app_assoc. repeat split; [exact Ho | lia | lia].
Qed.

(** After the loop: the bounds of the last two slices hold. *)
Lemma tryExtractErrorMessage_shape msg k e :
  strings.find msg op_separator = Some k ->
  strings.find_last msg end_marker = Some e ->
  (k < e)%nat ->
  exists k' op,
    (k + 2 <= k')%nat /\ (k' <= e)%nat /\
    occurs_at op_separator msg (k' - 2) /\
    (tryExtractErrorMessage msg = Ret (cut msg k' e) \/
     tryExtractErrorMessage msg
     = Ret (str "cannot unmarshal " ++ op ++ str ": " ++ cut msg k' e)).
Proof.
  intros Fk Fe Hlt.
  apply find_Some in Fk as Hk. destruct Hk as (Hk & Hkl & _).
  apply find_last_Some in Fe as He. destruct He as (He & Hel & _).
  pose proof (marker_inside _ _ He) as Hlen.
  assert (Hke : (k + 2 <= e)%nat)
    by (apply (separator_clear_of_marker msg); [exact Hk | exact He | lia]).
  unfold tryExtractErrorMessage, strings.LastIndex, strings.Index.
  rewrite Fk, Fe. cbn [strings.position].
  destruct (Z.of_nat e =? -1) eqn:E1; [apply Z.eqb_eq in E1; lia|].
  destruct (Z.of_nat k =? -1) eqn:E2; [apply Z.eqb_eq in E2; lia|].
  change (substring msg 0 (Z.of_nat k))
    with (substring msg (Z.of_nat 0) (Z.of_nat k)).
  rewrite (substring_ok msg 0 k) by lia. cbn [bind].
  destruct (operation_loop_inv (S (length msg)) msg e [cut msg 0 k] k
              He Hk Hke ltac:(lia)) as (more & k1 & Hr & Ho & Hle & Hk1).
  rewrite Hr. cbn [bind].
  replace (Z.of_nat k1 + 2) with (Z.of_nat (k1 + 2)) by lia.
  rewrite substring_from_ok by lia.
  rewrite (substring_ok msg (k1 + 2) e) by lia.
  exists (k1 + 2)%nat.
  replace (k1 + 2 - 2)%nat with k1 by lia.
  destruct (1 <? Z.of_nat (length ([cut msg 0 k] ++ more))) eqn:E3;
    cbn [bind].
  - destruct (isLikelyDetailedErrorMessage _).
    + apply Z.ltb_lt in E3. unfold stack_at.
      replace ((0 <=? Z.of_nat (length ([cut msg 0 k] ++ more)) - 2)
               && (Z.of_nat (length ([cut msg 0 k] ++ more)) - 2
                   <? Z.of_nat (length ([cut msg 0 k] ++ more))))
        with true
        by (symmetry; rewrite andb_true_iff, Z.leb_le, Z.ltb_lt; lia).
      destruct (nth_error _ _) as [op|] eqn:En.
      * exists op. cbn [bind]. repeat split; [lia | lia | exact Ho |].
        right. reflexivity.
      * apply nth_error_None in En. lia.
    + exists []. repeat split; [lia | lia | exact Ho |]. left. reflexivity.
  - exists []. repeat split; [lia | lia | exact Ho |]. left. reflexivity.
Qed.

(** ** A message made of operations, a text and the marker *)

Lemma HasPrefix_app_l (p : bytes) :
  forall a b, (length p <= length a)%nat ->
              strings.HasPrefix (a ++ b) p = strings.HasPrefix a p.
Proof.
  induction p as [|c p IH]; intros a b H; [reflexivity|].
  destruct a as [|d a]; simpl in H; [lia|].
  simpl. rewrite IH by lia. reflexivity.
Qed.

Lemma occurs_at_app_l sub a b n :
  occurs_at sub (a ++ b) n -> (n + length sub <= length a)%nat ->
  occurs_at sub a n.
Proof.
  unfold occurs_at. intros H Hn.
  rewrite skipn_app in H.
  replace (n - length a)%nat with 0%nat in H by lia. simpl in H.
  rewrite HasPrefix_app_l in H; [exact H|].
  rewrite length_skipn. lia.
Qed.

Lemma skipn_app_exact (a b : bytes) : skipn (length a) (a ++ b) = b.
Proof.
  rewrite skipn_app, skipn_all, Nat.sub_diag. reflexivity.
Qed.

Lemma firstn_app_exact (a b : bytes) : firstn (length a) (a ++ b) = a.
Proof.
  rewrite firstn_app, firstn_all, Nat.sub_diag. simpl. apply app_nil_r.
Qed.

Lemma no_space_no_separator (op : bytes) :
  no_space op -> strings.find op op_separator = None.
Proof.
  unfold no_space.
  induction op as [|c op IH]; intros H; [reflexivity|].
  simpl in H.
  destruct (Byte.eqb c x20) eqn:Ec; simpl in H; [discriminate|].
  destruct (strings.find op (str " ")) eqn:F; [discriminate|].
  cbn [strings.find].
  assert (Hp : strings.HasPrefix (c :: op) op_separator = false).
  { simpl. destruct (Byte.eqb c x3a); [|reflexivity]. simpl.
    destruct op as [|d op]; [reflexivity|].
    simpl in F. destruct (Byte.eqb d x20); [discriminate | reflexivity]. }
  rewrite Hp, (IH eq_refl). reflexivity.
Qed.

Lemma find_app_separator (a r : bytes) :
  strings.find a op_separator = None ->
  strings.find (a ++ op_separator ++ r) op_separator = Some (length a).
Proof.
  induction a as [|c a IH]; intros H; [reflexivity|].
  cbn [strings.find] in H.
  destruct (strings.HasPrefix (c :: a) op_separator) eqn:E; [discriminate|].
  destruct (strings.find a op_separator) eqn:F; [discriminate|].
  cbn [app strings.find length].
  assert (Hp : strings.HasPrefix (c :: a ++ op_separator ++ r) op_separator
               = false).
  { simpl in *. destruct (Byte.eqb c x3a); [|reflexivity]. simpl in *.
    destruct a as [|d a]; [reflexivity|].
    simpl in *. destruct (Byte.eqb d x20); [discriminate | reflexivity]. }
  rewrite Hp, (IH eq_refl). reflexivity.
Qed.

Lemma find_after_text (text tail : bytes) (n : nat) :
  strings.find text op_separator = None ->
  strings.find (text ++ end_marker ++ tail) op_separator = Some n ->
  (length text + 2 <= n)%nat.
Proof.
  intros Ht Hn. apply find_Some in Hn. destruct Hn as (Ho & _ & _).
  assert (He : occurs_at end_marker (text ++ end_marker ++ tail)
                         (length text)).
  { unfold occurs_at. rewrite skipn_app_exact. apply HasPrefix_app. }
  destruct (Nat.le_gt_cases n (length text + 1)) as [Hle|Hgt]; [|lia].
  pose proof (separator_clear_of_marker _ _ _ Ho He Hle) as Hin.
  exfalso. apply (find_None _ _ Ht n).
  apply (occurs_at_app_l _ _ _ _ Ho). exact Hin.
Qed.

(** On such a message the loop takes every operation and stops in front of
    the text. *)
Lemma operation_loop_chain (text tail : bytes) :
  strings.find text op_separator = None ->
  forall ops msg A stack fuel,
    Forall no_space ops ->
    msg = A ++ chain ops text ++ end_marker ++ tail ->
    (2 <= length A)%nat ->
    (length msg < fuel + length A)%nat ->
    operation_loop fuel msg (Z.of_nat (length (A ++ chain ops text))) stack
                   (Z.of_nat (length A - 2))
    = Ret (stack ++ ops,
           Z.of_nat (length (A ++ chain ops text) - length text - 2)).
Proof.
  intros Ht.
  induction ops as [|o ops IH]; intros msg A stack fuel Hs Hm HA Hf;
    (destruct fuel as [|fuel];
     [subst msg; rewrite !length_app in Hf; lia|]);
    cbn [operation_loop];
    replace (Z.of_nat (length A - 2) + 2) with (Z.of_nat (length A)) by lia;
    (rewrite substring_from_ok
      by (subst msg; rewrite length_app; lia));
    cbn [bind];
    (assert (Hskip : skipn (length A) msg
                     = chain (_ : list bytes) text ++ end_marker ++ tail)
      by (rewrite Hm; apply skipn_app_exact));
    rewrite Hskip; unfold strings.Index.
  - cbn [chain]. rewrite app_nil_r.
    replace (length (A ++ text) - length text - 2)%nat
      with (length A - 2)%nat by (rewrite length_app; lia).
    destruct (strings.find (text ++ end_marker ++ tail) op_separator)
      as [n|] eqn:F; cbn [strings.position]; [|reflexivity].
    apply find_after_text in F; [|exact Ht].
    destruct (Z.of_nat n =? -1); [reflexivity|].
    replace (Z.of_nat (length (A ++ text))
             <=? Z.of_nat (length A - 2) + Z.of_nat n) with true
      by (symmetry; apply Z.leb_le; rewrite length_app; lia).
    reflexivity.
  - inversion Hs as [|o' ops' Ho Hops]; subst o' ops'.
    cbn [chain]. rewrite <- !app_assoc.
    rewrite (find_app_separator o _ (no_space_no_separator o Ho)).
    cbn [strings.position].
    destruct (Z.of_nat (length o) =? -1) eqn:E1;
      [apply Z.eqb_eq in E1; lia|].
    replace (Z.of_nat (length (A ++ o ++ op_separator ++ chain ops text))
             <=? Z.of_nat (length A - 2) + Z.of_nat (length o)) with false
      by (symmetry; apply Z.leb_gt; rewrite !length_app; simpl; lia).
    replace (Z.of_nat (length A) + Z.of_nat (length o))
      with (Z.of_nat (length A + length o)) by lia.
    rewrite substring_ok
      by first [lia | subst msg; cbn [chain]; rewrite !length_app; lia].
    cbn [bind].
    assert (Hcut : cut msg (length A) (length A + length o) = o).
    { unfold cut. rewrite Hm. rewrite skipn_app_exact. cbn [chain].
      rewrite <- !app_assoc.
      replace (length A + length o - length A)%nat with (length o) by lia.
      apply firstn_app_exact. }
    rewrite Hcut.
    unfold strings.Contains, strings.Index. unfold no_space in Ho.
    rewrite Ho. cbn [strings.position].
    replace (0 <=? -1) with false by reflexivity.
    replace (Z.of_nat (length A - 2) + (Z.of_nat (length o) + 2))
      with (Z.of_nat (length (A ++ o ++ op_separator) - 2))
      by (rewrite !length_app; simpl; lia).
    replace (A ++ o ++ op_separator ++ chain ops text)
      with ((A ++ o ++ op_separator) ++ chain ops text)
      by (rewrite <- !app_assoc; reflexivity).
    rewrite (IH msg (A ++ o ++ op_separator) (stack ++ [o]) fuel Hops).
    + rewrite <- app_assoc. reflexivity.
    + rewrite Hm. cbn [chain]. rewrite <- !app_assoc. reflexivity.
    + rewrite !length_app. simpl. lia.
    + rewrite !length_app. simpl. lia.
Qed.

Lemma occurs_occurs_at sub s :
  occurs sub s -> exists n, occurs_at sub s n.
Proof.
  intros (a & b & ->). exists (length a).
  unfold occurs_at. rewrite skipn_app_exact. apply HasPrefix_app.
Qed.

Lemma find_last_None_not_occurs sub s :
  strings.find_last s sub = None -> ~ occurs sub s.
Proof.
  intros H Ho. apply occurs_occurs_at in Ho. destruct Ho as (n & Hn).
  exact (find_last_None _ _ H n Hn).
Qed.

Lemma find_None_not_occurs sub s :
  strings.find s sub = None -> ~ occurs sub s.
Proof.
  intros H Ho. apply occurs_occurs_at in Ho. destruct Ho as (n & Hn).
  exact (find_None _ _ H n Hn).
Qed.

(** A first separator behind the last marker: the final slice has its
    bounds the wrong way round. *)
Lemma tryExtractErrorMessage_panic msg k e :
  strings.find msg op_separator = Some k ->
  strings.find_last msg end_marker = Some e ->
  (e < k)%nat ->
  tryExtractErrorMessage msg = Panic "slice bounds out of range".
Proof.
  intros Fk Fe Hlt.
  apply find_Some in Fk as Hk. destruct Hk as (Hk & _ & _).
  pose proof (separator_inside _ _ Hk) as Hlen.
  unfold tryExtractErrorMessage, strings.LastIndex, strings.Index.
  rewrite Fk, Fe. cbn [strings.position].
  destruct (Z.of_nat e =? -1) eqn:E1; [apply Z.eqb_eq in E1; lia|].
  destruct (Z.of_nat k =? -1) eqn:E2; [apply Z.eqb_eq in E2; lia|].
  change (substring msg 0 (Z.of_nat k))
    with (substring msg (Z.of_nat 0) (Z.of_nat k)).
  rewrite (substring_ok msg 0 k) by lia. cbn [bind operation_loop].
  replace (Z.of_nat k + 2) with (Z.of_nat (k + 2)) by lia.
  rewrite substring_from_ok by lia. cbn [bind].
  assert (Hend : (st <- Ret ([cut msg 0 k], Z.of_nat k);;
                  (let '(operationStack, msgStartIndex) := st in
                   detailed <-
                   (if 1 <? Z.of_nat (length operationStack)
                    then tail <- substring_from msg (msgStartIndex + 2);;
                         Ret (isLikelyDetailedErrorMessage tail)
                    else Ret false);;
                   (if detailed
                    then op <- stack_at operationStack
                                        (Z.of_nat (length operationStack) - 2);;
                         text <- substring msg (msgStartIndex + 2)
                                           (Z.of_nat e);;
                         Ret (str "cannot unmarshal " ++ op ++ str ": "
                              ++ text)
                    else substring msg (msgStartIndex + 2) (Z.of_nat e))))
                 = Panic "slice bounds out of range").
  { cbn [bind length]. unfold substring.
    replace (Z.of_nat k + 2 <=? Z.of_nat e) with false
      by (symmetry; apply Z.leb_gt; lia).
    rewrite andb_false_r. reflexivity. }
  unfold strings.Index.
  destruct (strings.find (skipn (k + 2) msg) op_separator) as [n|];
    cbn [strings.position]; [|exact Hend].
  destruct (Z.of_nat n =? -1); [exact Hend|].
  replace (Z.of_nat e <=? Z.of_nat k + Z.of_nat n) with true
    by (symmetry; apply Z.leb_le; lia).
  exact Hend.
Qed.

(** ** What [tryExtractErrorMessage] returns *)

Lemma tryExtractErrorMessage_other (msg : bytes) :
  ~ occurs end_marker msg \/ ~ occurs op_separator msg ->
  tryExtractErrorMessage msg = Ret msg.
Proof.
  intros H. unfold tryExtractErrorMessage, strings.LastIndex, strings.Index.
  destruct (strings.find_last msg end_marker) as [e|] eqn:Fe;
    cbn [strings.position]; [|reflexivity].
  destruct (Z.of_nat e =? -1); [reflexivity|].
  destruct (strings.find msg op_separator) as [k|] eqn:Fk;
    cbn [strings.position]; [|reflexivity].
  exfalso. destruct H as [H|H]; apply H.
  - apply find_last_Some in Fe. eapply occurs_at_occurs, Fe.
  - apply find_Some in Fk. eapply occurs_at_occurs, Fk.
Qed.

(** X1: a message that does not contain the marker [", error found in #"],
    or does not contain [": "], is returned as it is. *)
Theorem tryExtractErrorMessage_keeps_other_messages (msg : bytes) :
  ~ occurs end_marker msg \/ ~ occurs op_separator msg ->
  tryExtractErrorMessage msg = Ret msg.
Proof. apply tryExtractErrorMessage_other. Qed.

Lemma tryExtractErrorMessage_keeps_other_messages_witness :
  tryExtractErrorMessage (str "unexpected end of JSON input: EOF")
  = Ret (str "unexpected end of JSON input: EOF").
Proof.
  apply (tryExtractErrorMessage_keeps_other_messages
           (str "unexpected end of JSON input: EOF")).
  left. apply find_last_None_not_occurs. vm_compute. reflexivity.
Defined.

(** X2: [tryExtractErrorMessage] panics, with slice bounds out of range,
    exactly when the message contains the marker and its first [": "] lies
    behind the last marker; on every other message it returns. *)
Theorem tryExtractErrorMessage_panics_exactly_when (msg : bytes) :
  if (0 <=? strings.LastIndex msg end_marker)
     && (strings.LastIndex msg end_marker <? strings.Index msg op_separator)
  then tryExtractErrorMessage msg = Panic "slice bounds out of range"
  else exists r, tryExtractErrorMessage msg = Ret r.
Proof.
  unfold strings.LastIndex, strings.Index.
  destruct (strings.find_last msg end_marker) as [e|] eqn:Fe;
    destruct (strings.find msg op_separator) as [k|] eqn:Fk;
    cbn [strings.position].
  - destruct ((0 <=? Z.of_nat e) && (Z.of_nat e <? Z.of_nat k)) eqn:C.
    + apply andb_true_iff in C. destruct C as (_ & C).
      apply Z.ltb_lt in C.
      apply (tryExtractErrorMessage_panic msg k e Fk Fe). lia.
    + apply andb_false_iff in C.
      rewrite Z.leb_gt, Z.ltb_ge in C.
      assert (Hne : k <> e).
      { intros ->. apply find_Some in Fk. apply find_last_Some in Fe.
        destruct Fk as (Hk & _), Fe as (He & _).
        pose proof (separator_clear_of_marker msg e e Hk He). lia. }
      destruct (tryExtractErrorMessage_shape msg k e Fk Fe ltac:(lia))
        as (k' & op & _ & _ & _ & [H|H]); eexists; exact H.
  - replace ((0 <=? Z.of_nat e) && (Z.of_nat e <? -1)) with false
      by (symmetry; apply andb_false_iff; right; apply Z.ltb_ge; lia).
    exists msg. apply tryExtractErrorMessage_other.
    right. apply find_None_not_occurs, Fk.
  - simpl. exists msg. apply tryExtractErrorMessage_other.
    left. apply find_last_None_not_occurs, Fe.
  - simpl. exists msg. apply tryExtractErrorMessage_other.
    left. apply find_last_None_not_occurs, Fe.
Qed.

(** X3: when the first [": "] lies in front of the last marker, what is
    returned is the message from just behind one of its [": "] up to the
    last marker, either alone or behind ["cannot unmarshal <operation>: "];
    nothing from the marker on is returned. *)
Theorem tryExtractErrorMessage_cuts_at_marker (msg : bytes) :
  0 <= strings.Index msg op_separator < strings.LastIndex msg end_marker ->
  exists k op,
    (2 <= k)%nat /\ occurs_at op_separator msg (k - 2) /\
    Z.of_nat k <= strings.LastIndex msg end_marker /\
    let text := cut msg k (Z.to_nat (strings.LastIndex msg end_marker)) in
    tryExtractErrorMessage msg = Ret text \/
    tryExtractErrorMessage msg
    = Ret (str "cannot unmarshal " ++ op ++ str ": " ++ text).
Proof.
  unfold strings.Index, strings.LastIndex.
  destruct (strings.find msg op_separator) as [k|] eqn:Fk;
    destruct (strings.find_last msg end_marker) as [e|] eqn:Fe;
    cbn [strings.position]; intros H; try lia.
  destruct (tryExtractErrorMessage_shape msg k e Fk Fe ltac:(lia))
    as (k' & op & H1 & H2 & H3 & H4).
  exists k', op. rewrite Nat2Z.id.
  repeat split; [lia | exact H3 | lia | exact H4].
Qed.

Lemma tryExtractErrorMessage_cuts_at_marker_witness :
  exists k op,
    (2 <= k)%nat /\
    occurs_at op_separator
              (str "a.B: Read: bad x, error found in #3 byte of ...|: |...")
              (k - 2) /\
    Z.of_nat k
    <= strings.LastIndex
         (str "a.B: Read: bad x, error found in #3 byte of ...|: |...")
         end_marker /\
    let text :=
      cut (str "a.B: Read: bad x, error found in #3 byte of ...|: |...") k
          (Z.to_nat
             (strings.LastIndex
                (str "a.B: Read: bad x, error found in #3 byte of ...|: |...")
                end_marker)) in
    tryExtractErrorMessage
      (str "a.B: Read: bad x, error found in #3 byte of ...|: |...")
    = Ret text \/
    tryExtractErrorMessage
      (str "a.B: Read: bad x, error found in #3 byte of ...|: |...")
    = Ret (str "cannot unmarshal " ++ op ++ str ": " ++ text).
Proof.
  apply (tryExtractErrorMessage_cuts_at_marker
           (str "a.B: Read: bad x, error found in #3 byte of ...|: |...")).
  vm_compute. split; [discriminate | reflexivity].
Defined.

(** X4: on a message [first: op: ... : op: text, error found in #...], where
    [first] contains no [": "], no further operation contains a blank, [text]
    contains no [": "] and the marker occurs only once from there on, the
    result is [text] when there is no further operation or what follows the
    operations starts with ["request."], and otherwise
    ["cannot unmarshal " + <the last operation but one> + ": " + text]. *)
Theorem tryExtractErrorMessage_on_operation_chain
        (first : bytes) (ops : list bytes) (text tail : bytes) :
  strings.find first op_separator = None ->
  Forall no_space ops ->
  strings.find text op_separator = None ->
  strings.LastIndex (end_marker ++ tail) end_marker = 0 ->
  tryExtractErrorMessage
    (first ++ op_separator ++ chain ops text ++ end_marker ++ tail)
  = Ret (if negb (length ops =? 0)%nat
            && isLikelyDetailedErrorMessage (text ++ end_marker ++ tail)
         then str "cannot unmarshal " ++ penultimate (first :: ops)
              ++ str ": " ++ text
         else text).
Proof.
  intros Hfirst Hops Htext Hlast.
  set (A := first ++ op_separator).
  set (msg := first ++ op_separator ++ chain ops text ++ end_marker ++ tail).
  assert (Hm : msg = A ++ chain ops text ++ end_marker ++ tail)
    by (unfold msg, A; rewrite <- app_assoc; reflexivity).
  assert (HA : length A = (length first + 2)%nat)
    by (unfold A; rewrite length_app; reflexivity).
  assert (Hlen : length msg
                 = (length (A ++ chain ops text) + 18 + length tail)%nat).
  { rewrite Hm, !length_app. simpl. lia. }
  assert (Htl : (length text <= length (chain ops text))%nat).
  { clear. induction ops as [|o ops IH]; cbn [chain]; [lia|].
    rewrite !length_app. lia. }
  assert (Fk : strings.find msg op_separator = Some (length first))
    by (apply find_app_separator; exact Hfirst).
  assert (Fe : strings.find_last msg end_marker
               = Some (length (A ++ chain ops text))).
  { unfold strings.LastIndex in Hlast.
    apply (position_Some _ 0) in Hlast.
    rewrite Hm, app_assoc.
    rewrite (find_last_app _ _ _ _ Hlast). f_equal. lia. }
  unfold tryExtractErrorMessage, strings.LastIndex, strings.Index.
  rewrite Fk, Fe. cbn [strings.position].
  destruct (Z.of_nat (length (A ++ chain ops text)) =? -1) eqn:E1;
    [apply Z.eqb_eq in E1; lia|].
  destruct (Z.of_nat (length first) =? -1) eqn:E2;
    [apply Z.eqb_eq in E2; lia|].
  change (substring msg 0 (Z.of_nat (length first)))
    with (substring msg (Z.of_nat 0) (Z.of_nat (length first))).
  rewrite (substring_ok msg 0 (length first))
    by (rewrite ?Hlen, ?length_app; lia).
  cbn [bind].
  assert (Hop : cut msg 0 (length first) = first).
  { unfold cut, msg. rewrite Nat.sub_0_r. simpl. apply firstn_app_exact. }
  rewrite Hop.
  replace (Z.of_nat (length first)) with (Z.of_nat (length A - 2)) by lia.
  rewrite (operation_loop_chain text tail Htext ops msg A [first]
             (S (length msg)) Hops Hm) by lia.
  cbn [bind].
  set (E := length (A ++ chain ops text)).
  assert (HE : (length A + length text <= E)%nat)
    by (unfold E; rewrite length_app; lia).
  replace (Z.of_nat (E - length text - 2) + 2)
    with (Z.of_nat (E - length text)) by lia.
  rewrite substring_from_ok by lia.
  rewrite (substring_ok msg (E - length text) E) by lia.
  assert (Hskip : forall o A', skipn (length (A' ++ chain o text)
                                      - length text)
                                     ((A' ++ chain o text) ++ end_marker ++ tail)
                               = text ++ end_marker ++ tail).
  { clear. induction o as [|o os IH]; intros A'; cbn [chain].
    - rewrite length_app, Nat.add_sub. rewrite <- app_assoc.
      apply skipn_app_exact.
    - replace (A' ++ o ++ op_separator ++ chain os text)
        with ((A' ++ o ++ op_separator) ++ chain os text)
        by (rewrite <- !app_assoc; reflexivity).
      apply IH. }
  assert (Hrest : skipn (E - length text) msg = text ++ end_marker ++ tail).
  { unfold E. rewrite Hm, app_assoc. apply Hskip. }
  rewrite Hrest.
  assert (Htext' : cut msg (E - length text) E = text).
  { unfold cut. rewrite Hrest.
    replace (E - (E - length text))%nat with (length text) by lia.
    apply firstn_app_exact. }
  rewrite Htext'.
  destruct ops as [|o ops]; [reflexivity|].
  replace (1 <? Z.of_nat (length ([first] ++ o :: ops))) with true
    by (symmetry; apply Z.ltb_lt; cbn [length app]; lia).
  cbn [bind length Nat.eqb negb andb].
  destruct (isLikelyDetailedErrorMessage (text ++ end_marker ++ tail));
    [|reflexivity].
  unfold stack_at, penultimate.
  replace ((0 <=? Z.of_nat (length ([first] ++ o :: ops)) - 2)
           && (Z.of_nat (length ([first] ++ o :: ops)) - 2
               <? Z.of_nat (length ([first] ++ o :: ops)))) with true
    by (symmetry; rewrite andb_true_iff, Z.leb_le, Z.ltb_lt;
        cbn [length app]; lia).
  replace (Z.to_nat (Z.of_nat (length ([first] ++ o :: ops)) - 2))
    with (length (first :: o :: ops) - 2)%nat by (cbn [length app]; lia).
  change ([first] ++ o :: ops) with (first :: o :: ops).
  rewrite (nth_error_nth' (first :: o :: ops) []) by (cbn [length]; lia).
  reflexivity.
Qed.

Lemma tryExtractErrorMessage_on_operation_chain_witness :
  tryExtractErrorMessage
    (str "openrtb2.BidRequest.ID" ++ op_separator
     ++ chain [str "ReadString"] (str "expects quote or n, but found 1")
     ++ end_marker ++ str "8 byte of ...|{'id': 1}|...")
  = Ret (str "cannot unmarshal openrtb2.BidRequest.ID: expects quote or n, but found 1").
Proof.
  apply (tryExtractErrorMessage_on_operation_chain
           (str "openrtb2.BidRequest.ID") [str "ReadString"]
           (str "expects quote or n, but found 1")
           (str "8 byte of ...|{'id': 1}|...")).
  - vm_compute. reflexivity.
  - repeat constructor.
  - vm_compute. reflexivity.
  - vm_compute. reflexivity.
Defined.

(** ** More on [FindElement] and [DropElement] *)

Lemma FindElement_error_not_found (names : list bytes) :
  forall extension found s e err,
    FindElement extension names = Ret (found, s, e, Some err) ->
    found = false.
Proof.
  induction names as [|name names IH]; intros ext found s e err H;
    cbn [FindElement] in H; [discriminate|].
  destruct (token_loop _ _ _ _ _) as [[r|f0 s0 e0]| |] eqn:Ht;
    cbn [bind] in H; try discriminate.
  - apply token_loop_return in Ht. destruct Ht as (e1 & ->).
    inversion H; subst. reflexivity.
  - destruct f0; [|inversion H].
    destruct names as [|name' names]; [inversion H|].
    destruct (colon_loop _ _ _) as [s1| |]; cbn [bind] in H;
      try discriminate.
    destruct (back_loop _ _ _) as [e1| |]; cbn [bind] in H;
      try discriminate.
    destruct (subslice ext s1 e1) as [w| |]; cbn [bind] in H;
      try discriminate.
    destruct (FindElement w (name' :: names))
      as [[[[f2 s2] e2] err2]| |] eqn:Hr; cbn [bind] in H;
      try discriminate.
    inversion H; subst. eapply IH. exact Hr.
Qed.

Lemma token_loop_nonempty (fuel : nat) (extension : slice) (name : bytes) :
  forall dec s0 s e,
    wf_dec dec ->
    s0 <= InputOffset dec ->
    token_loop fuel extension name dec s0 = Ret (Break true s e) ->
    s < e.
Proof.
  induction fuel as [|fuel IH]; intros dec s0 s e Hwf Hs0 H;
    cbn [token_loop] in H; [discriminate|].
  unfold wf_dec, InputOffset in *.
  destruct (Token dec) as [[token d1|err1]| |] eqn:Ht; cbn [bind] in H;
    try discriminate.
  - apply Token_inv in Ht. destruct Ht as (Hb1 & Hs1).
    destruct (token_eq token name).
    + destruct (Decode d1) as [[] d2|err2] eqn:Hd; [|discriminate].
      apply Decode_inv in Hd; [|unfold wf_dec; rewrite Hb1; lia].
      destruct Hd as (Hb2 & Hs2).
      destruct (More d2).
      * destruct (index extension s0) as [c| |] eqn:Hi; cbn [bind] in H;
          try discriminate.
        destruct (comma_loop (loop_fuel extension) extension
                             (Z.of_nat (scanp d2))) as [e2| |] eqn:Hc;
          cbn [bind] in H; try discriminate.
        apply comma_loop_inv in Hc.
        inversion H; subst; clear H.
        destruct (Byte.eqb c comma); lia.
      * inversion H; subst; clear H. lia.
    + apply IH in H; [assumption|rewrite Hb1; lia|lia].
  - destruct (is_EOF err1); inversion H.
Qed.

Lemma FindElement_nonempty (names : list bytes) :
  forall extension s e err,
    FindElement extension names = Ret (true, s, e, err) -> s < e.
Proof.
  induction names as [|name names IH]; intros ext s e err H;
    cbn [FindElement] in H; [discriminate|].
  destruct (token_loop _ _ _ _ _) as [[r|f0 s0 e0]| |] eqn:Ht;
    cbn [bind] in H; try discriminate.
  - apply token_loop_return in Ht. destruct Ht as (e1 & ->).
    inversion H.
  - destruct f0; [|inversion H].
    destruct names as [|name' names].
    + inversion H; subst.
      apply token_loop_nonempty in Ht;
        [exact Ht | unfold wf_dec; simpl; lia
         | unfold InputOffset; simpl; lia].
    + destruct (colon_loop _ _ _) as [s1| |]; cbn [bind] in H;
        try discriminate.
      destruct (back_loop _ _ _) as [e1| |]; cbn [bind] in H;
        try discriminate.
      destruct (subslice ext s1 e1) as [w| |]; cbn [bind] in H;
        try discriminate.
      destruct (FindElement w (name' :: names))
        as [[[[f2 s2] e2] err2]| |] eqn:Hr; cbn [bind] in H;
        try discriminate.
      inversion H; subst. apply IH in Hr. lia.
Qed.

(** The comma scan stops just behind the first comma it meets. *)
Lemma comma_loop_first (fuel : nat) (extension : slice) :
  forall e e', comma_loop fuel extension e = Ret e' ->
               index extension (e' - 1) = Ret comma /\
               forall i, e <= i < e' - 1 -> index extension i <> Ret comma.
Proof.
  induction fuel as [|fuel IH]; intros e e' H; simpl in H; [discriminate|].
  destruct (index extension e) as [c| |] eqn:Hi; simpl in H;
    try discriminate.
  destruct (Byte.eqb c comma) eqn:Ec.
  - inversion H; subst. apply Byte.byte_dec_bl in Ec. subst c.
    replace (e + 1 - 1) with e by lia. split; [exact Hi | intros i Hr; lia].
  - apply IH in H. destruct H as (H1 & H2). split; [exact H1|].
    intros i Hr. destruct (Z.eq_dec i e) as [->|Hne].
    + rewrite Hi. intros Heq. inversion Heq; subst.
      rewrite (Byte.byte_dec_lb (eq_refl comma)) in Ec. discriminate.
    + apply H2. lia.
Qed.

(** What the token loop does at the first token equal to the name. *)
Lemma token_loop_stream_found (extension : slice) (name : bytes)
      (pre : list (jsonToken * Decoder)) :
  forall fuel dec s0 tok d post e' d2,
    token_stream fuel dec = Ret (pre ++ (tok, d) :: post, e') ->
    no_match name pre ->
    token_eq tok name = true ->
    Decode d = Ok tt d2 ->
    token_loop fuel extension name dec s0
    = if More d2 then
        c <- index extension (last_offset s0 pre);;
        endIndex <- comma_loop (loop_fuel extension) extension
                               (InputOffset d2);;
        Ret (Break true (if Byte.eqb c comma then last_offset s0 pre + 1
                         else last_offset s0 pre) endIndex)
      else Ret (Break true (last_offset s0 pre) (InputOffset d2)).
Proof.
  induction pre as [|p pre IH]; intros fuel dec s0 tok d post e' d2 H Hn Hm Hd;
    (destruct fuel as [|fuel]; cbn [token_stream token_loop] in *;
     [discriminate|]);
    (destruct (Token dec) as [[token d1|err1]| |]; cbn [bind] in *;
     try discriminate);
    (destruct (token_stream fuel d1) as [[rest e'']| |] eqn:Hs;
     cbn [bind] in H; try discriminate);
    inversion H; subst; clear H; simpl in *.
  - rewrite Hm, Hd. reflexivity.
  - inversion Hn; subst. simpl in *.
    match goal with Hx : token_eq _ name = false |- _ => rewrite Hx end.
    eapply IH; eassumption.
Qed.

(** X5: every call of [FindElement] and of [DropElement] ends: each of the
    unbounded [for] loops reaches a [return], a [break] or a failing bounds
    check, so a call returns or panics. *)
Theorem FindElement_and_DropElement_terminate
        (extension : slice) (elementNames : list bytes) :
  ((exists r, FindElement extension elementNames = Ret r) \/
   (exists what, FindElement extension elementNames = Panic what)) /\
  ((exists d, DropElement extension elementNames = Ret d) \/
   (exists what, DropElement extension elementNames = Panic what)).
Proof.
  pose proof (FindElement_not_fuel elementNames extension) as Hf.
  pose proof (DropElement_not_fuel extension elementNames) as Hd.
  split.
  - destruct (FindElement extension elementNames) as [r|w|];
      [left; eexists; reflexivity | right; eexists; reflexivity
       | contradiction].
  - destruct (DropElement extension elementNames) as [d|w|];
      [left; eexists; reflexivity | right; eexists; reflexivity
       | contradiction].
Qed.

(** X6: an error is never returned together with found=true, also not from
    a nested search; and when [FindElement] returns an error, [DropElement]
    returns a nil slice and that error and leaves the backing array as it
    was. *)
Theorem error_excludes_found
        (extension : slice) (elementNames : list bytes)
        (found : bool) (startIndex endIndex : Z) (e : error) :
  FindElement extension elementNames
  = Ret (found, startIndex, endIndex, Some e) ->
  found = false /\
  DropElement extension elementNames
  = Ret (mkDropped nil_slice (Some e) (backing extension)).
Proof.
  intros H. split.
  - eapply FindElement_error_not_found. exact H.
  - eapply DropElement_error. exact H.
Qed.

Lemma error_excludes_found_witness :
  false = false /\
  DropElement (slice_of (js "{'x':{'y':tru},'w':1}")) [str "x"; str "y"]
  = Ret (mkDropped nil_slice
                   (Some (SyntaxError x7d "in literal true (expecting 'e')"))
                   (backing (slice_of (js "{'x':{'y':tru},'w':1}")))).
Proof.
  apply (error_excludes_found
           (slice_of (js "{'x':{'y':tru},'w':1}")) [str "x"; str "y"]
           false (-1) (-1)
           (SyntaxError x7d "in literal true (expecting 'e')")).
  vm_compute. reflexivity.
Defined.

(** X7: [FindElement] reads only the [len(extension)] visible bytes: two
    slices with the same elements give the same result, whatever their
    backing arrays hold beyond that. *)
Theorem FindElement_reads_visible_bytes_only
        (s1 s2 : slice) (elementNames : list bytes) :
  elems s1 = elems s2 ->
  FindElement s1 elementNames = FindElement s2 elementNames.
Proof. intros H. apply FindElement_elems. exact H. Qed.

Lemma FindElement_reads_visible_bytes_only_witness :
  FindElement (mkSlice (js "{'x':{'y':1},'w':2}") (js ",'y':3}"))
              [str "x"; str "y"]
  = FindElement (slice_of (js "{'x':{'y':1},'w':2}")) [str "x"; str "y"].
Proof.
  apply (FindElement_reads_visible_bytes_only
           (mkSlice (js "{'x':{'y':1},'w':2}") (js ",'y':3}"))
           (slice_of (js "{'x':{'y':1},'w':2}")) [str "x"; str "y"]).
  reflexivity.
Defined.

(** X8: the range of a found element is never empty, so [DropElement]
    returns a strictly shorter buffer, of exactly
    [len(extension) - (endIndex - startIndex)] bytes. *)
Theorem found_element_is_removed
        (extension : slice) (elementNames : list bytes)
        (startIndex endIndex : Z) :
  FindElement extension elementNames = Ret (true, startIndex, endIndex, None) ->
  startIndex < endIndex /\
  exists d,
    DropElement extension elementNames = Ret d /\
    len (result_slice d) = len extension - (endIndex - startIndex) /\
    len (result_slice d) < len extension.
Proof.
  intros H.
  pose proof (FindElement_nonempty _ _ _ _ _ H) as Hlt.
  pose proof (FindElement_bounds _ _ _ _ _ _ H eq_refl) as Hb.
  split; [exact Hlt|].
  apply DropElement_found in H. eexists. split; [exact H|].
  cbn [result_slice]. unfold len at 1 3. cbn [elems].
  unfold spliced, upto, from.
  rewrite length_app, length_firstn, length_skipn.
  unfold len in *. lia.
Qed.

Lemma found_element_is_removed_witness :
  1 < 7 /\
  exists d,
    DropElement (slice_of (js "{'a':1,'b':2}")) [str "a"] = Ret d /\
    len (result_slice d) = len (slice_of (js "{'a':1,'b':2}")) - (7 - 1) /\
    len (result_slice d) < len (slice_of (js "{'a':1,'b':2}")).
Proof.
  apply (found_element_is_removed
           (slice_of (js "{'a':1,'b':2}")) [str "a"] 1 7).
  vm_compute. reflexivity.
Defined.

(** X9: a found element is removed in place.  The slice returned shares the
    backing array of [extension]; afterwards that array holds the result,
    then the last [endIndex - startIndex] bytes of the old contents, which
    are left behind unchanged, then the old spare capacity. *)
Theorem DropElement_compacts_in_place
        (extension : slice) (elementNames : list bytes)
        (startIndex endIndex : Z) :
  FindElement extension elementNames = Ret (true, startIndex, endIndex, None) ->
  exists d,
    DropElement extension elementNames = Ret d /\
    backing (result_slice d) = array_after d /\
    array_after d
    = elems (result_slice d)
      ++ skipn (length (elems (result_slice d))) (elems extension)
      ++ spare extension.
Proof.
  intros H.
  pose proof (FindElement_bounds _ _ _ _ _ _ H eq_refl) as Hb.
  apply DropElement_found in H. eexists. split; [exact H|].
  cbn [result_slice array_after elems]. split; [reflexivity|].
  f_equal. unfold backing. rewrite skipn_app.
  replace (length (spliced extension startIndex endIndex)
           - length (elems extension))%nat with 0%nat; [reflexivity|].
  unfold spliced, upto, from.
  rewrite length_app, length_firstn, length_skipn.
  unfold len in Hb. lia.
Qed.

Lemma DropElement_compacts_in_place_witness :
  exists d,
    DropElement (mkSlice (js "{'a':1,'b':2}") (str "##")) [str "a"] = Ret d /\
    backing (result_slice d) = array_after d /\
    array_after d
    = elems (result_slice d)
      ++ skipn (length (elems (result_slice d))) (js "{'a':1,'b':2}")
      ++ str "##".
Proof.
  apply (DropElement_compacts_in_place
           (mkSlice (js "{'a':1,'b':2}") (str "##")) [str "a"] 1 7).
  vm_compute. reflexivity.
Defined.

(** X10: with one path segment, the element found is the first token of the
    buffer, in reading order and at any depth, that equals the segment.
    When no further token follows its value at that level, the range runs
    from the offset behind the token read before it to the offset behind
    the value. *)
Theorem first_match_last_member
        (extension : slice) (name : bytes)
        (pre post : list (jsonToken * Decoder))
        (tok : jsonToken) (d d2 : Decoder) (e : error) :
  tokens (elems extension) = Ret (pre ++ (tok, d) :: post, e) ->
  no_match name pre ->
  token_eq tok name = true ->
  Decode d = Ok tt d2 ->
  More d2 = false ->
  FindElement extension [name]
  = Ret (true, last_offset 0 pre, InputOffset d2, None).
Proof.
  intros Ht Hn Hm Hd Hmore. cbn [FindElement].
  unfold tokens in Ht. fold (loop_fuel extension) in Ht.
  rewrite (token_loop_stream_found extension name pre _ _ 0 _ _ _ _ _
             Ht Hn Hm Hd).
  rewrite Hmore. reflexivity.
Qed.

Lemma first_match_last_member_witness :
  FindElement (slice_of (js "{'k':{'a':1,'b':2}}")) [str "b"]
  = Ret (true, 11, 17, None).
Proof.
  pose (toks := match tokens (js "{'k':{'a':1,'b':2}}") with
                | Ret (l, _) => l
                | _ => []
                end).
  refine (first_match_last_member
            (slice_of (js "{'k':{'a':1,'b':2}}")) (str "b")
            (firstn 5 toks) (skipn 6 toks) (TString (str "b"))
            (mkDecoder (js "{'k':{'a':1,'b':2}}") 15 tokenObjectColon
                       [tokenObjectValue; tokenTopValue])
            (mkDecoder (js "{'k':{'a':1,'b':2}}") 17 tokenObjectComma
                       [tokenObjectValue; tokenTopValue])
            io_EOF _ _ _ _ _).
  - vm_compute. reflexivity.
  - vm_compute. repeat constructor.
  - reflexivity.
  - vm_compute. reflexivity.
  - vm_compute. reflexivity.
Defined.

(** X11: with one path segment, when a further token follows the value of
    the first token equal to the segment, a range that is returned starts
    where the previous token ended, one byte later if a comma stands there,
    and ends just behind the first comma at or after the end of the
    value. *)
Theorem first_match_with_sibling
        (extension : slice) (name : bytes)
        (pre post : list (jsonToken * Decoder))
        (tok : jsonToken) (d d2 : Decoder) (e : error)
        (startIndex endIndex : Z) :
  tokens (elems extension) = Ret (pre ++ (tok, d) :: post, e) ->
  no_match name pre ->
  token_eq tok name = true ->
  Decode d = Ok tt d2 ->
  More d2 = true ->
  FindElement extension [name] = Ret (true, startIndex, endIndex, None) ->
  (startIndex = last_offset 0 pre /\
   index extension (last_offset 0 pre) <> Ret comma \/
   startIndex = last_offset 0 pre + 1 /\
   index extension (last_offset 0 pre) = Ret comma) /\
  index extension (endIndex - 1) = Ret comma /\
  forall i, InputOffset d2 <= i < endIndex - 1 ->
            index extension i <> Ret comma.
Proof.
  intros Ht Hn Hm Hd Hmore H. cbn [FindElement] in H.
  unfold tokens in Ht. fold (loop_fuel extension) in Ht.
  rewrite (token_loop_stream_found extension name pre _ _ 0 _ _ _ _ _
             Ht Hn Hm Hd) in H.
  rewrite Hmore in H.
  destruct (index extension (last_offset 0 pre)) as [c| |] eqn:Hi;
    cbn [bind] in H; try discriminate.
  destruct (comma_loop _ _ _) as [e2| |] eqn:Hc; cbn [bind] in H;
    try discriminate.
  inversion H; subst; clear H.
  apply comma_loop_first in Hc. destruct Hc as (Hc1 & Hc2).
  split; [|split; assumption].
  destruct (Byte.eqb c comma) eqn:Ec.
  - right. apply Byte.byte_dec_bl in Ec. subst c. split; reflexivity.
  - left. split; [reflexivity|]. intros Heq. inversion Heq; subst.
    rewrite (Byte.byte_dec_lb (eq_refl comma)) in Ec. discriminate.
Qed.

Lemma first_match_with_sibling_witness :
  (7 = 6 /\ index (slice_of (js "{'a':1,'b': 2 ,'c':3}")) 6 <> Ret comma \/
   7 = 6 + 1 /\ index (slice_of (js "{'a':1,'b': 2 ,'c':3}")) 6 = Ret comma) /\
  index (slice_of (js "{'a':1,'b': 2 ,'c':3}")) (15 - 1) = Ret comma /\
  forall i, 13 <= i < 15 - 1 ->
            index (slice_of (js "{'a':1,'b': 2 ,'c':3}")) i <> Ret comma.
Proof.
  pose (toks := match tokens (js "{'a':1,'b': 2 ,'c':3}") with
                | Ret (l, _) => l
                | _ => []
                end).
  refine (first_match_with_sibling
            (slice_of (js "{'a':1,'b': 2 ,'c':3}")) (str "b")
            (firstn 3 toks) (skipn 4 toks) (TString (str "b"))
            (mkDecoder (js "{'a':1,'b': 2 ,'c':3}") 10 tokenObjectColon
                       [tokenTopValue])
            (mkDecoder (js "{'a':1,'b': 2 ,'c':3}") 13 tokenObjectComma
                       [tokenTopValue])
            io_EOF 7 15 _ _ _ _ _ _).
  - vm_compute. reflexivity.
  - vm_compute. repeat constructor.
  - reflexivity.
  - vm_compute. reflexivity.
  - vm_compute. reflexivity.
  - vm_compute. reflexivity.
Defined.

(** X12: an element found through a path of several segments lies inside
    the element its first segment alone finds: its range starts behind the
    start of that element and ends no later, so removing it touches no byte
    outside the enclosing member. *)
Theorem nested_range_inside_parent
        (extension : slice) (name next : bytes) (names : list bytes)
        (parentStart parentEnd startIndex endIndex : Z) :
  FindElement extension [name] = Ret (true, parentStart, parentEnd, None) ->
  FindElement extension (name :: next :: names)
  = Ret (true, startIndex, endIndex, None) ->
  parentStart < startIndex /\ startIndex < endIndex /\ endIndex <= parentEnd.
Proof.
  intros Hp H.
  pose proof (FindElement_nonempty _ _ _ _ _ H) as Hlt.
  remember (next :: names) as rest eqn:Hrest.
  cbn [FindElement] in Hp, H.
  destruct (token_loop _ _ _ _ _) as [[r|f0 s0 e0]| |] eqn:Ht;
    cbn [bind] in Hp, H; try discriminate.
  - apply token_loop_return in Ht. destruct Ht as (e1 & ->).
    inversion H.
  - destruct f0; [|inversion H].
    inversion Hp; subst s0 e0; clear Hp.
    destruct rest as [|next' names']; [discriminate|].
    destruct (colon_loop _ _ _) as [s1| |] eqn:Hc; cbn [bind] in H;
      try discriminate.
    destruct (back_loop _ _ _) as [e1| |] eqn:Hk; cbn [bind] in H;
      try discriminate.
    destruct (subslice extension s1 e1) as [w| |] eqn:Hw; cbn [bind] in H;
      try discriminate.
    destruct (FindElement w (next' :: names'))
      as [[[[f2 s2] e2] err2]| |] eqn:Hr; cbn [bind] in H;
      try discriminate.
    inversion H; subst f2 startIndex endIndex err2; clear H.
    apply FindElement_bounds in Hr; [|reflexivity].
    rewrite (subslice_len _ _ _ _ Hw) in Hr.
    apply colon_loop_inv in Hc. apply back_loop_inv in Hk. lia.
Qed.

Lemma nested_range_inside_parent_witness :
  1 < 6 /\ 6 < 12 /\ 12 <= 19.
Proof.
  apply (nested_range_inside_parent
           (slice_of (js "{'x':{'y':1,'z':2},'w':3}"))
           (str "x") (str "y") [] 1 19 6 12).
  - vm_compute. reflexivity.
  - vm_compute. reflexivity.
Defined.
